(** * Synthetic noise generators and the response integrator of the
      Pastas validation notebooks

    The notebooks build correlated noise with short NumPy loops
    (AR(1), AR(1) with irregular time steps, ARMA(1,1)) and check the
    analytic step response of a response-function family against the
    quadrature of its impulse response.  The loops are embedded below the
    way they are written: zero-initialised arrays, indexed reads and
    writes that raise [IndexError] out of range, and a [for] loop over
    [range(1, n)].  The arithmetic of the arrays is kept abstract (a
    [Scalar] interface), so every statement proved without algebraic laws
    holds for any interpretation of [+], [*], [/] and [exp]; the real
    numbers are the instance used for concrete inputs. *)

From Stdlib Require Import Reals Lra Lia Sorted.
From stdpp Require Import base list.

(** ** Scalars *)

(** The operations the cells apply to array elements. [fis0] is the test
    Python performs before a scalar division, [of_nat] turns a loop index
    into a sample time, and [arange_len x] is [len(np.arange(0, x))]. *)
Class Scalar (F : Type) := {
  f0 : F;
  f1 : F;
  fadd : F -> F -> F;
  fsub : F -> F -> F;
  fmul : F -> F -> F;
  fdiv : F -> F -> F;
  fneg : F -> F;
  fexp : F -> F;
  fis0 : F -> bool;
  of_nat : nat -> F;
  arange_len : F -> nat
}.

Declare Scope scalar_scope.
Delimit Scope scalar_scope with fl.
Infix "+" := fadd : scalar_scope.
Infix "-" := fsub : scalar_scope.
Infix "*" := fmul : scalar_scope.
Infix "/" := fdiv : scalar_scope.
Notation "- x" := (fneg x) : scalar_scope.

(** The two laws used when a coefficient is the literal zero. *)
Class ZeroLaws (F : Type) `{Scalar F} : Prop := {
  fmul_0_r : forall x : F, (x * f0)%fl = f0;
  fadd_0_r : forall x : F, (x + f0)%fl = x
}.

(** ** Python results *)

Inductive PyError : Set :=
  | IndexError
  | ZeroDivisionError
  | ValueError.

Inductive Result (A : Type) : Type :=
  | Ok (a : A)
  | Raise (e : PyError).

Arguments Ok {A} a.
Arguments Raise {A} e.

Definition bind {A B : Type} (r : Result A) (k : A -> Result B) : Result B :=
  match r with
  | Ok a => k a
  | Raise e => Raise e
  end.

Notation "x <- e ;; k" := (bind e (fun x => k))
  (at level 100, e at next level, right associativity).

(** [for i in idxs: s = body(i, s)], stopping at the first exception. *)
Fixpoint for_range {S : Type} (idxs : list nat) (body : nat -> S -> Result S)
    (s : S) : Result S :=
  match idxs with
  | [] => Ok s
  | i :: rest => s' <- body i s ;; for_range rest body s'
  end.

(** [range(1, n)] *)
Definition range1 (n : nat) : list nat := seq 1 (n - 1).

Section Arrays.
Context {A : Type}.

(** [l[i]] for a non-negative index *)
Definition np_get (l : list A) (i : nat) : Result A :=
  match l !! i with
  | Some x => Ok x
  | None => Raise IndexError
  end.

(** [l[i] = v] for a non-negative index *)
Definition np_set (l : list A) (i : nat) (v : A) : Result (list A) :=
  if decide (i < length l) then Ok (<[i:=v]> l) else Raise IndexError.
End Arrays.

(** Every entry of [r] from index 1 up to [m] (excluded) is related by [P]
    to the entry before it. *)
Definition linked_upto {A : Type} (P : nat -> A -> A -> Prop) (m : nat)
    (r : list A) : Prop :=
  forall i prev, 1 <= i < m -> r !! (i - 1) = Some prev ->
    exists v, r !! i = Some v /\ P i prev v.

(** [r[i] = g(noise[i], r[i-1])] for every [i] with [1 <= i < len(noise)]. *)
Definition recurrence {A : Type} (g : A -> A -> A) (noise r : list A) : Prop :=
  forall i ni prev, 1 <= i < length noise ->
    noise !! i = Some ni -> r !! (i - 1) = Some prev ->
    r !! i = Some (g ni prev).

(** ** The noise generators *)

Section NoiseGenerator.
Context {F : Type} `{Scalar F}.

(** [np.zeros(n)] *)
Definition zeros (n : nat) : list F := replicate n f0.

(** Python's [x / y] on plain numbers *)
Definition py_div (x y : F) : Result F :=
  if fis0 y then Raise ZeroDivisionError else Ok (x / y)%fl.

(** noisemodel.ipynb, section 3:
<<
    a = np.zeros_like(head[0])
    for i in range(1, noise.size):
        a[i] = noise[i] + a[i - 1] * alpha
>>
    [noise] is drawn with [len(head)] entries, so [a] has as many. *)
Definition ar1_body (alpha : F) (noise : list F) (i : nat) (a : list F)
    : Result (list F) :=
  ni <- np_get noise i ;;
  ap <- np_get a (i - 1) ;;
  np_set a i (ni + ap * alpha)%fl.

Definition ar1_cell (alpha : F) (noise : list F) : Result (list F) :=
  let a := zeros (length noise) in
  for_range (range1 (length noise)) (ar1_body alpha noise) a.

(** The ARMA(1,1) noise-model notebook (unnamed/part_001), section 3:
<<
    a = np.zeros_like(head[0])
    for i in range(1, noise.size):
        a[i] = noise[i] + noise[i - 1] * beta + a[i - 1] * alpha
>> *)
Definition arma_body (alpha beta : F) (noise : list F) (i : nat)
    (a : list F) : Result (list F) :=
  ni <- np_get noise i ;;
  nm <- np_get noise (i - 1) ;;
  ap <- np_get a (i - 1) ;;
  np_set a i (ni + nm * beta + ap * alpha)%fl.

Definition arma_cell (alpha beta : F) (noise : list F) : Result (list F) :=
  let a := zeros (length noise) in
  for_range (range1 (length noise)) (arma_body alpha beta noise) a.

(** pastas_synthetic.ipynb, test 2:
<<
    noise_corr = np.zeros(len(noise))
    noise_corr[0] = noise[0]
    for i in range(1, len(noise_corr)):
        noise_corr[i] = np.exp(-1 / alphatrue) * noise_corr[i - 1] + noise[i]
>>
    [alphatrue] is a plain Python number, so [-1 / alphatrue] raises
    [ZeroDivisionError] when it is zero. *)
Definition noise_corr_body (alphatrue : F) (noise : list F) (i : nat)
    (nc : list F) : Result (list F) :=
  q <- py_div (- f1)%fl alphatrue ;;
  p <- np_get nc (i - 1) ;;
  ni <- np_get noise i ;;
  np_set nc i (fexp q * p + ni)%fl.

Definition noise_corr_cell (alphatrue : F) (noise : list F)
    : Result (list F) :=
  let nc := zeros (length noise) in
  n0 <- np_get noise 0 ;;
  nc <- np_set nc 0 n0 ;;
  for_range (range1 (length nc)) (noise_corr_body alphatrue noise) nc.

(** noisemodel.ipynb, synthetic heads with irregular steps:
<<
    delt = (ho.index[1:] - ho.index[:-1]).values / pd.Timedelta("1d")
    noise = sigma_n * np.random.randn(len(ho))
    residuals = np.zeros_like(noise)
    residuals[0] = noise[0]
    for i in range(1, len(ho)):
        residuals[i] = np.exp(-delt[i - 1] / alpha) * residuals[i - 1] + noise[i]
>>
    [delt] is a NumPy array, so the division is NumPy's and does not
    raise.  [noise] has [len(ho)] entries. *)
Definition ho_delt (index : list F) : list F :=
  zip_with (fun later earlier => (later - earlier)%fl) (drop 1 index) index.

Definition residuals_body (delt : list F) (alpha : F) (noise : list F)
    (i : nat) (r : list F) : Result (list F) :=
  d <- np_get delt (i - 1) ;;
  p <- np_get r (i - 1) ;;
  ni <- np_get noise i ;;
  np_set r i (fexp (- d / alpha) * p + ni)%fl.

Definition residuals_cell (delt : list F) (alpha : F) (noise : list F)
    : Result (list F) :=
  let r := zeros (length noise) in
  n0 <- np_get noise 0 ;;
  r <- np_set r 0 n0 ;;
  for_range (range1 (length noise)) (residuals_body delt alpha noise) r.

End NoiseGenerator.

(** ** The recursion of the specification

    The AR(1) sequence in the words of the specification:
    [r[0] = noise[0]] and [r[i] = noise[i] + alpha * r[i-1]] for [i >= 1].
    It is the reference the cells are compared with. *)

Section SpecRecursion.
Context {F : Type} `{Scalar F}.

Fixpoint ar1_spec_from (alpha prev : F) (noise : list F) : list F :=
  match noise with
  | [] => []
  | x :: rest =>
      let r := (x + alpha * prev)%fl in
      r :: ar1_spec_from alpha r rest
  end.

Definition ar1_spec (alpha : F) (noise : list F) : list F :=
  match noise with
  | [] => []
  | x :: rest => x :: ar1_spec_from alpha x rest
  end.

(** The same, read element by element. *)
Definition ar1_spec_pointwise (alpha : F) (noise r : list F) : Prop :=
  r !! 0 = noise !! 0 /\
  recurrence (fun ni prev => ni + alpha * prev)%fl noise r.
End SpecRecursion.

(** ** The response integrator *)

(** Upper limit of a quadrature: a sample time or [np.inf]. *)
Inductive Bound (F : Type) : Type :=
  | Finite (x : F)
  | Infinity.

Arguments Finite {F} x.
Arguments Infinity {F}.

(** What the notebook uses of a response-function family of the library:
    [impulse(t, p)], [step(p)] (the analytic step response as an array) and
    [get_tmax(p)]. *)
Record Family (F : Type) : Type := {
  impulse : F -> list F -> F;
  step : list F -> list F;
  get_tmax : list F -> F
}.

Arguments impulse {F} _ _ _.
Arguments step {F} _ _.
Arguments get_tmax {F} _ _.

(** The arrays a check leaves behind: the sample times, the analytic step
    response and the numerical one. *)
Record Checked (F : Type) : Type := {
  chk_t : list F;
  chk_step : list F;
  chk_stepnum : list F
}.

Arguments chk_t {F} _.
Arguments chk_step {F} _.
Arguments chk_stepnum {F} _.

Section ResponseIntegrator.
Context {F : Type} `{Scalar F}.

(** [scipy.integrate.quad(func, a, b, args)]: the estimate of the
    integral and of its absolute error. *)
Variable quad : (F -> list F -> F) -> F -> Bound F -> list F -> F * F.

(** [np.arange(0, tmax)] *)
Definition arange (tmax : F) : list F := of_nat <$> seq 0 (arange_len tmax).

(** The loop shared by all the cells:
<<
    for i in range(1, len(t)):
        stepnum[i] = quad(fam.impulse, 0, t[i], args=(p))[0]
>> *)
Definition quad_body (fam : Family F) (p t : list F) (i : nat)
    (stepnum : list F) : Result (list F) :=
  ti <- np_get t i ;;
  np_set stepnum i (fst (quad (impulse fam) f0 (Finite ti) p)).

(** The cells of Gamma, Exponential, Hantush, Polder, DoubleExponential
    and Kraijenhoff:
<<
    tmax = fam.get_tmax(p)
    t = np.arange(0, tmax)
    step = fam.step(p)
    stepnum = np.zeros(len(t))
    for i in range(1, len(t)): ...
>> *)
Definition integrate_cell (fam : Family F) (p : list F) : Result (Checked F) :=
  let tmax := get_tmax fam p in
  let t := arange tmax in
  let step := step fam p in
  let stepnum := zeros (length t) in
  stepnum <- for_range (range1 (length t)) (quad_body fam p t) stepnum ;;
  Ok {| chk_t := t; chk_step := step; chk_stepnum := stepnum |}.

(** The cell of FourParam ends with
<<
    stepnum = stepnum / quad(fourparam.impulse, 0, np.inf, args=p)[0]
>> *)
Definition fourparam_total (fam : Family F) (p : list F) : F :=
  fst (quad (impulse fam) f0 Infinity p).

Definition fourparam_cell (fam : Family F) (p : list F) : Result (Checked F) :=
  c <- integrate_cell fam p ;;
  let stepnum := (fun x => (x / fourparam_total fam p)%fl) <$> chk_stepnum c in
  Ok {| chk_t := chk_t c; chk_step := chk_step c; chk_stepnum := stepnum |}.

(** [plt.plot(x, y)] refuses arrays of different lengths. *)
Definition plt_plot (x y : list F) : Result unit :=
  if decide (length x = length y) then Ok tt else Raise ValueError.

(** The comparison cell:
<<
    plt.plot(t[1:], step, label="analytic")
    plt.plot(t, stepnum, "--", label="numerical")
>> *)
Definition compare_cell (c : Checked F) : Result unit :=
  _ <- plt_plot (drop 1 (chk_t c)) (chk_step c) ;;
  plt_plot (chk_t c) (chk_stepnum c).

(** A check of one family: the integration cell, then the comparison. *)
Definition check_family (fam : Family F) (p : list F) : Result (Checked F) :=
  c <- integrate_cell fam p ;;
  _ <- compare_cell c ;;
  Ok c.

Definition check_fourparam (fam : Family F) (p : list F) : Result (Checked F) :=
  c <- fourparam_cell fam p ;;
  _ <- compare_cell c ;;
  Ok c.
End ResponseIntegrator.

(** ** Real numbers as scalars *)

Definition R_is0 (x : R) : bool := if Req_dec_T x 0 then true else false.

(** Number of integers in [[0, x)]: the ceiling of [x], or none. *)
Definition R_arange_len (x : R) : nat := Z.to_nat (1 - up (- x)).

#[export] Instance R_scalar : Scalar R := {|
  f0 := 0%R;
  f1 := 1%R;
  fadd := Rplus;
  fsub := Rminus;
  fmul := Rmult;
  fdiv := Rdiv;
  fneg := Ropp;
  fexp := exp;
  fis0 := R_is0;
  of_nat := INR;
  arange_len := R_arange_len
|}.

#[export] Instance R_zero_laws : ZeroLaws R.
Proof. split; intros x; cbn; lra. Qed.

(** A family with a constant impulse response [A], for [p = [A]], cut off
    at [tmax = 3]; its step response at the times 1 and 2 is [A] and [2A].
    The one-point rule below integrates it exactly over a bounded range;
    over [[0, inf)] it answers 1, the unit gain. *)
Definition const_family : Family R := {|
  impulse := fun _ p => hd 0%R p;
  step := fun p => [hd 0%R p; (2 * hd 0%R p)%R];
  get_tmax := fun _ => 3%R
|}.

Definition quad_one_point (f : R -> list R -> R) (a : R) (b : Bound R)
    (p : list R) : R * R :=
  match b with
  | Finite b => (((b - a) * f b p)%R, 0%R)
  | Infinity => (1%R, 0%R)
  end.

(** ** The synthetic head *)

Section HeadGenerator.
Context {F : Type} `{Scalar F}.

(** [range(n)] *)
Definition range0 (n : nat) : list nat := seq 0 n.

(** [h[i : i + len(v)] += v].  NumPy clips the slice to the array; the
    sum in place needs the clipped slice to be as long as [v], or [v] to
    have the one entry that broadcasts (here over an empty slice). *)
Definition slice_add (h : list F) (i : nat) (v : list F) : Result (list F) :=
  let m := Nat.min (i + length v) (length h) - Nat.min i (length h) in
  if decide (m = length v) then
    Ok (take i h ++ zip_with fadd (take (length v) (drop i h)) v
          ++ drop (i + length v) h)
  else if decide (length v = 1) then Ok h
  else Raise ValueError.

(** The loop of the head cell; [rain[i]] reads the amounts of the rain by
    position:
<<
    h = dtrue * np.ones(len(rain) + step.size)
    for i in range(len(rain)):
        h[i : i + step.size] += rain[i] * step
    ... h[: len(rain)]
>> *)
Definition head_body (rain step : list F) (i : nat) (h : list F)
    : Result (list F) :=
  ri <- np_get rain i ;;
  slice_add h i ((fun s => ri * s)%fl <$> step).

Definition head_array (dtrue : F) (rain step : list F) : Result (list F) :=
  let h := replicate (length rain + length step) (dtrue * f1)%fl in
  h <- for_range (range0 (length rain)) (head_body rain step) h ;;
  Ok (take (length rain) h).

(** A time series is the list of its rows, a time stamp and a value, in
    the order of its index; pandas keeps a time stamp as a whole number of
    nanoseconds.

    [pd.DataFrame(index=index, data=data)] refuses an index and a column of
    different lengths. *)
Definition data_frame (index : list Z) (data : list F) : Result (list (Z * F)) :=
  if decide (length index = length data) then Ok (zip index data)
  else Raise ValueError.

(** [head[lo:hi]] with date labels, on an index in increasing order as the
    rain has it: the rows whose time stamp lies between the start of [lo]
    and the end of [hi], both included, in their order. *)
Definition date_window (lo hi : Z) (rows : list (Z * F)) : list (Z * F) :=
  filter (fun row => (lo <= row.1 <= hi)%Z) rows.

(** noisemodel.ipynb and the ARMA(1,1) notebook, section 2 (the same cell
    is in pastas_synthetic.ipynb with [lenstep] for [step.size] and the
    window ["1990":"1999"]):
<<
    h = dtrue * np.ones(len(rain) + step.size)
    for i in range(len(rain)):
        h[i : i + step.size] += rain[i] * step
    head = pd.DataFrame(index=rain.index, data=h[: len(rain)])
    head = head["1990":"2015"]
>> *)
Definition head_cell (lo hi : Z) (dtrue : F) (rain : list (Z * F))
    (step : list F) : Result (list (Z * F)) :=
  h <- head_array dtrue (rain.*2) step ;;
  head <- data_frame (rain.*1) h ;;
  Ok (date_window lo hi head).

(** What day [i] of rain adds to the head of day [k], and the head of day
    [k] after the first [m] days of rain, summed in the order of the
    loop. *)
Definition head_term (rain step : list F) (k : nat) (acc : F) (i : nat) : F :=
  if decide (i <= k) then
    match rain !! i, step !! (k - i) with
    | Some ri, Some sj => (acc + ri * sj)%fl
    | _, _ => acc
    end
  else acc.

Definition head_sum (dtrue : F) (rain step : list F) (k m : nat) : F :=
  fold_left (head_term rain step k) (seq 0 m) (dtrue * f1)%fl.

(** The rows of the head before the date window: day [k] of the rain with
    its sum. *)
Definition head_rows (dtrue : F) (rain : list (Z * F)) (step : list F)
    : list (Z * F) :=
  imap (fun k row => (row.1, head_sum dtrue (rain.*2) step k (S k))) rain.
End HeadGenerator.

(** ** The gamma block response of pastas_synthetic.ipynb *)

Section GammaBlock.
Context {F : Type} `{Scalar F}.

(** [scipy.special.gammainc(a, x)] and [scipy.special.gammaincinv(a, y)] *)
Variable gammainc : F -> F -> F.
Variable gammaincinv : F -> F -> F.

(**
<<
    def gamma_tmax(A, n, a, cutoff=0.999):
        return gammaincinv(n, cutoff) * a
>> *)
Definition gamma_tmax (A n a cutoff : F) : F := (gammaincinv n cutoff * a)%fl.

(** [np.arange(0, tmax, 1)] raises [ValueError] when it cannot compute the
    length of its array: [tmax] is infinite, not a number, or asks for more
    entries than an array can have.  [arange_fits] says whether it can;
    running out of memory is not modelled. *)
Variable arange_fits : F -> bool.

Definition np_arange (tmax : F) : Result (list F) :=
  if arange_fits tmax then Ok (arange tmax) else Raise ValueError.

(**
<<
    def gamma_step(A, n, a, cutoff=0.999):
        tmax = gamma_tmax(A, n, a, cutoff)
        t = np.arange(0, tmax, 1)
        s = A * gammainc(n, t / a)
        return s
>> *)
Definition gamma_step (A n a cutoff : F) : Result (list F) :=
  let tmax := gamma_tmax A n a cutoff in
  t <- np_arange tmax ;;
  Ok ((fun ti => A * gammainc n (ti / a))%fl <$> t).

(** [np.append(s[0], s[1:] - s[:-1])] *)
Definition block_of_step (s : list F) : Result (list F) :=
  s0 <- np_get s 0 ;;
  Ok (s0 :: zip_with fsub (drop 1 s) (take (length s - 1) s)).

(**
<<
    def gamma_block(A, n, a, cutoff=0.999):
        s = gamma_step(A, n, a, cutoff)
        return np.append(s[0], s[1:] - s[:-1])
>> *)
Definition gamma_block (A n a cutoff : F) : Result (list F) :=
  s <- gamma_step A n a cutoff ;;
  block_of_step s.

(** The head of pastas_synthetic.ipynb:
<<
    step = gamma_block(Atrue, ntrue, atrue)[1:]
    lenstep = len(step)
    h = dtrue * np.ones(len(rain) + lenstep)
    for i in range(len(rain)):
        h[i : i + lenstep] += rain[i] * step
    head = pd.DataFrame(index=rain.index, data=h[: len(rain)])
    head = head["1990":"1999"]
>> *)
Definition synthetic_head_cell (lo hi : Z) (A n a cutoff dtrue : F)
    (rain : list (Z * F)) : Result (list (Z * F)) :=
  block <- gamma_block A n a cutoff ;;
  head_cell lo hi dtrue rain (drop 1 block).
End GammaBlock.

(** ** The standard deviation of the residuals (noisemodel.ipynb)

<<
    sigma_r = sigma_n / np.sqrt(1 - np.exp(-2 * 14 / alpha))
>>
    [alpha] is a plain Python number, so the division raises when it is
    zero. *)
Definition sigma_r_cell (sigma_n alpha : R) : Result R :=
  q <- py_div (Ropp 2 * 14)%R alpha ;;
  Ok (sigma_n / sqrt (1 - exp q))%R.

(** Sum of a list of reals. *)
Definition Rsum (l : list R) : R := fold_right Rplus 0%R l.

(** The law used where the cell of FourParam divides its initial zero: zero
    divided by a non-zero number is zero. *)
Class ZeroDivLaw (F : Type) `{Scalar F} : Prop := {
  fdiv_0_l : forall x : F, fis0 x = false -> (f0 / x)%fl = f0
}.

#[export] Instance R_zero_div_law : ZeroDivLaw R.
Proof. split; intros x _; cbn; unfold Rdiv; apply Rmult_0_l. Qed.

(** * Properties *)

(** ** Reads, writes and loops *)

Section ArrayFacts.
Context {A : Type}.
Implicit Types l : list A.

Lemma np_get_Some l i x : l !! i = Some x -> np_get l i = Ok x.
Proof. intros E. unfold np_get. now rewrite E. Qed.

Lemma np_get_lt l i : i < length l -> exists x, l !! i = Some x /\ np_get l i = Ok x.
Proof.
  intros Hi. destruct (lookup_lt_is_Some_2 l i Hi) as [x E].
  exists x. split; [exact E | now apply np_get_Some].
Qed.

Lemma np_get_ge l i : length l <= i -> np_get l i = Raise IndexError.
Proof. intros Hi. unfold np_get. now rewrite (lookup_ge_None_2 l i Hi). Qed.

Lemma np_set_lt l i v : i < length l -> np_set l i v = Ok (<[i:=v]> l).
Proof. intros Hi. unfold np_set. destruct (decide (i < length l)); [reflexivity | lia]. Qed.

Lemma np_set_length l i v l' : np_set l i v = Ok l' -> length l' = length l.
Proof.
  unfold np_set. destruct (decide (i < length l)); [| discriminate].
  intros [= <-]. apply length_insert.
Qed.
End ArrayFacts.

Section LoopFacts.
Context {A : Type}.
Variable n : nat.
Variable body : nat -> list A -> Result (list A).
Variable P : nat -> A -> A -> Prop.

(** One pass of the body at index [i] writes entry [i] only, with a value
    related by [P] to the entry before it. *)
Hypothesis body_step : forall i a prev,
  1 <= i < n -> length a = n -> a !! (i - 1) = Some prev ->
  exists v, body i a = Ok (<[i:=v]> a) /\ P i prev v.

Lemma for_range_linked_from k : forall s a,
  1 <= s -> (k = 0 \/ s + k <= n) -> length a = n -> linked_upto P s a ->
  exists r, for_range (seq s k) body a = Ok r /\ length r = n /\
    (forall j, j < s -> r !! j = a !! j) /\ linked_upto P (s + k) r.
Proof.
  induction k as [| k IH]; intros s a Hs Hk Hlen Hinv.
  - exists a. cbn. rewrite Nat.add_0_r. auto.
  - destruct Hk as [Hk | Hk]; [discriminate |].
    assert (Hprev : s - 1 < length a) by lia.
    destruct (lookup_lt_is_Some_2 a (s - 1) Hprev) as [prev Eprev].
    destruct (body_step s a prev) as (v & Ebody & Hv); [lia | exact Hlen | exact Eprev |].
    destruct (IH (S s) (<[s:=v]> a)) as (r & Er & Hrlen & Hkeep & Hlink).
    + lia.
    + right. lia.
    + now rewrite length_insert.
    + intros i p Hi Ep.
      destruct (decide (i = s)) as [-> | Hne].
      * rewrite list_lookup_insert_ne in Ep by lia.
        rewrite Eprev in Ep. injection Ep as <-.
        exists v. split; [| exact Hv].
        apply list_lookup_insert_eq. lia.
      * rewrite list_lookup_insert_ne in Ep by lia.
        rewrite list_lookup_insert_ne by lia.
        apply Hinv; [lia | exact Ep].
    + exists r. cbn [seq for_range]. rewrite Ebody. cbn [bind].
      split; [exact Er |]. split; [exact Hrlen |]. split.
      * intros j Hj. rewrite Hkeep by lia. apply list_lookup_insert_ne. lia.
      * replace (s + S k) with (S s + k) by lia. exact Hlink.
Qed.

(** The loop over [range(1, n)] on an array of length [n] runs to the
    end, keeps entry 0 and links every later entry to its predecessor. *)
Lemma for_range_linked a :
  length a = n ->
  exists r, for_range (range1 n) body a = Ok r /\ length r = n /\
    r !! 0 = a !! 0 /\ linked_upto P n r.
Proof.
  intros Hlen.
  destruct (for_range_linked_from (n - 1) 1 a) as (r & Er & Hrlen & Hkeep & Hlink).
  - lia.
  - destruct n; [left; reflexivity | right; lia].
  - exact Hlen.
  - intros i p Hi. lia.
  - exists r. split; [exact Er |]. split; [exact Hrlen |]. split.
    + apply Hkeep. lia.
    + intros i p Hi. apply Hlink. lia.
Qed.
End LoopFacts.

Section LoopExt.
Context {A : Type}.

(** Two bodies that agree on the arrays of length [n] give the same loop. *)
Lemma for_range_ext (n : nat) (idxs : list nat)
    (body1 body2 : nat -> list A -> Result (list A)) :
  (forall i a, i ∈ idxs -> length a = n -> body1 i a = body2 i a) ->
  (forall i a a', i ∈ idxs -> length a = n -> body1 i a = Ok a' -> length a' = n) ->
  forall a, length a = n -> for_range idxs body1 a = for_range idxs body2 a.
Proof.
  induction idxs as [| i rest IH]; intros Hagree Hkeep a Hlen; [reflexivity |].
  cbn [for_range]. rewrite <- (Hagree i a) by (try left; assumption).
  destruct (body1 i a) as [a' | e] eqn:E; [| reflexivity].
  cbn [bind]. apply IH.
  - intros j b Hj. apply Hagree. now right.
  - intros j b b' Hj. apply Hkeep. now right.
  - apply (Hkeep i a a'); [left | exact Hlen | exact E].
Qed.

Lemma elem_of_range1 (n i : nat) : i ∈ range1 n -> 1 <= i < n.
Proof. unfold range1. rewrite elem_of_seq. lia. Qed.
End LoopExt.

(** ** The noise cells, one pass and whole loop *)

Section NoiseFacts.
Context {F : Type} `{Scalar F}.
Implicit Types noise delt a r : list F.

Lemma length_zeros (n : nat) : length (zeros n) = n.
Proof. apply length_replicate. Qed.

Lemma lookup_zeros_0 (n : nat) : 0 < n -> zeros n !! 0 = Some f0.
Proof. intros Hn. unfold zeros. apply lookup_replicate_2. exact Hn. Qed.

Lemma linked_recurrence (g : F -> F -> F) noise r :
  linked_upto (fun i prev v => forall ni, noise !! i = Some ni -> v = g ni prev)
    (length noise) r ->
  recurrence g noise r.
Proof.
  intros Hlink i ni prev Hi Eni Eprev.
  destruct (Hlink i prev Hi Eprev) as (v & Ev & Hv).
  now rewrite Ev, (Hv ni Eni).
Qed.

Lemma ar1_body_step alpha noise i a prev :
  1 <= i < length noise -> length a = length noise -> a !! (i - 1) = Some prev ->
  exists v, ar1_body alpha noise i a = Ok (<[i:=v]> a) /\
    forall ni, noise !! i = Some ni -> v = (ni + prev * alpha)%fl.
Proof.
  intros Hi Hlen Eprev.
  destruct (np_get_lt noise i) as (ni & Eni & Gni); [lia |].
  exists (ni + prev * alpha)%fl. split.
  - unfold ar1_body. rewrite Gni. cbn [bind].
    rewrite (np_get_Some _ _ _ Eprev). cbn [bind].
    apply np_set_lt. lia.
  - intros ni' E. rewrite Eni in E. now injection E as <-.
Qed.

Lemma ar1_cell_linked alpha noise :
  exists a, ar1_cell alpha noise = Ok a /\ length a = length noise /\
    a !! 0 = zeros (length noise) !! 0 /\
    recurrence (fun ni prev => ni + prev * alpha)%fl noise a.
Proof.
  destruct (for_range_linked (length noise) (ar1_body alpha noise) _
              (ar1_body_step alpha noise) (zeros (length noise)))
    as (a & Ea & Hlen & H0 & Hlink); [apply length_zeros |].
  exists a. repeat split; try assumption.
  now apply linked_recurrence.
Qed.

Lemma arma_body_length alpha beta noise i a a' :
  arma_body alpha beta noise i a = Ok a' -> length a' = length a.
Proof.
  unfold arma_body.
  destruct (np_get noise i); [| discriminate]. cbn [bind].
  destruct (np_get noise (i - 1)); [| discriminate]. cbn [bind].
  destruct (np_get a (i - 1)); [| discriminate]. cbn [bind].
  apply np_set_length.
Qed.

(** With [beta] the literal zero, one pass of the ARMA body is one pass
    of the AR(1) body. *)
Lemma arma_body_beta0 `{!ZeroLaws F} alpha noise i a :
  1 <= i < length noise ->
  arma_body alpha f0 noise i a = ar1_body alpha noise i a.
Proof.
  intros Hi. unfold arma_body, ar1_body.
  destruct (np_get_lt noise i) as (ni & _ & ->); [lia |].
  destruct (np_get_lt noise (i - 1)) as (nm & _ & ->); [lia |].
  cbn [bind]. now rewrite fmul_0_r, fadd_0_r.
Qed.

Lemma py_div_nonzero (x y : F) : fis0 y = false -> py_div x y = Ok (x / y)%fl.
Proof. intros E. unfold py_div. now rewrite E. Qed.

Lemma py_div_zero (x y : F) : fis0 y = true -> py_div x y = Raise ZeroDivisionError.
Proof. intros E. unfold py_div. now rewrite E. Qed.

Lemma noise_corr_body_step alphatrue noise i a prev :
  fis0 alphatrue = false ->
  1 <= i < length noise -> length a = length noise -> a !! (i - 1) = Some prev ->
  exists v, noise_corr_body alphatrue noise i a = Ok (<[i:=v]> a) /\
    forall ni, noise !! i = Some ni ->
      v = (fexp (- f1 / alphatrue) * prev + ni)%fl.
Proof.
  intros Hnz Hi Hlen Eprev.
  destruct (np_get_lt noise i) as (ni & Eni & Gni); [lia |].
  exists (fexp (- f1 / alphatrue) * prev + ni)%fl. split.
  - unfold noise_corr_body. rewrite (py_div_nonzero _ _ Hnz). cbn [bind].
    rewrite (np_get_Some _ _ _ Eprev). cbn [bind].
    rewrite Gni. cbn [bind]. apply np_set_lt. lia.
  - intros ni' E. rewrite Eni in E. now injection E as <-.
Qed.

(** The two seeded cells start alike: the array of zeros with
    [noise[0]] in front. *)
Lemma seed_first n0 noise :
  np_get (n0 :: noise) 0 = Ok n0 /\
  np_set (zeros (length (n0 :: noise))) 0 n0 = Ok (n0 :: zeros (length noise)).
Proof. split; reflexivity. Qed.

Lemma noise_corr_cell_cons alphatrue n0 rest :
  noise_corr_cell alphatrue (n0 :: rest) =
  for_range (range1 (length (n0 :: rest)))
    (noise_corr_body alphatrue (n0 :: rest)) (n0 :: zeros (length rest)).
Proof.
  unfold noise_corr_cell.
  destruct (seed_first n0 rest) as [E0 E1].
  rewrite E0. cbn [bind]. rewrite E1. cbn [bind].
  do 2 f_equal. cbn [length]. now rewrite length_zeros.
Qed.

Lemma noise_corr_cell_linked alphatrue noise :
  noise <> [] -> fis0 alphatrue = false ->
  exists r, noise_corr_cell alphatrue noise = Ok r /\ length r = length noise /\
    r !! 0 = noise !! 0 /\
    recurrence (fun ni prev => fexp (- f1 / alphatrue) * prev + ni)%fl noise r.
Proof.
  intros Hne Hnz. destruct noise as [| n0 rest]; [congruence |].
  set (noise := n0 :: rest).
  destruct (for_range_linked (length noise) (noise_corr_body alphatrue noise) _
              (fun i a prev => noise_corr_body_step alphatrue noise i a prev Hnz)
              (n0 :: zeros (length rest)))
    as (r & Er & Hlen & H0 & Hlink); [cbn; now rewrite length_zeros |].
  exists r. split; [| split; [exact Hlen | split; [exact H0 |]]].
  - subst noise. rewrite noise_corr_cell_cons. exact Er.
  - now apply linked_recurrence.
Qed.
End NoiseFacts.

Section ResidualsFacts.
Context {F : Type} `{Scalar F}.
Implicit Types noise delt a r : list F.

Lemma length_ho_delt (index : list F) : length (ho_delt index) = length index - 1.
Proof. unfold ho_delt. rewrite length_zip_with, length_drop. lia. Qed.

Lemma residuals_body_step delt alpha noise i a prev :
  length noise - 1 <= length delt ->
  1 <= i < length noise -> length a = length noise -> a !! (i - 1) = Some prev ->
  exists v, residuals_body delt alpha noise i a = Ok (<[i:=v]> a) /\
    forall d ni, delt !! (i - 1) = Some d -> noise !! i = Some ni ->
      v = (fexp (- d / alpha) * prev + ni)%fl.
Proof.
  intros Hdelt Hi Hlen Eprev.
  destruct (np_get_lt delt (i - 1)) as (d & Ed & Gd); [lia |].
  destruct (np_get_lt noise i) as (ni & Eni & Gni); [lia |].
  exists (fexp (- d / alpha) * prev + ni)%fl. split.
  - unfold residuals_body. rewrite Gd. cbn [bind].
    rewrite (np_get_Some _ _ _ Eprev). cbn [bind].
    rewrite Gni. cbn [bind]. apply np_set_lt. lia.
  - intros d' ni' E E'. rewrite Ed in E. rewrite Eni in E'.
    injection E as <-. now injection E' as <-.
Qed.

Lemma residuals_body_length delt alpha noise i a a' :
  residuals_body delt alpha noise i a = Ok a' -> length a' = length a.
Proof.
  unfold residuals_body.
  destruct (np_get delt (i - 1)); [| discriminate]. cbn [bind].
  destruct (np_get a (i - 1)); [| discriminate]. cbn [bind].
  destruct (np_get noise i); [| discriminate]. cbn [bind].
  apply np_set_length.
Qed.

Lemma residuals_cell_nil delt alpha : residuals_cell delt alpha [] = Raise IndexError.
Proof. reflexivity. Qed.

Lemma residuals_cell_cons delt alpha n0 rest :
  residuals_cell delt alpha (n0 :: rest) =
  for_range (range1 (length (n0 :: rest)))
    (residuals_body delt alpha (n0 :: rest)) (n0 :: zeros (length rest)).
Proof.
  unfold residuals_cell.
  destruct (seed_first n0 rest) as [E0 E1].
  rewrite E0. cbn [bind]. rewrite E1. reflexivity.
Qed.

Lemma residuals_cell_linked delt alpha noise :
  noise <> [] -> length noise - 1 <= length delt ->
  exists r, residuals_cell delt alpha noise = Ok r /\ length r = length noise /\
    r !! 0 = noise !! 0 /\
    forall i d ni prev, 1 <= i < length noise ->
      delt !! (i - 1) = Some d -> noise !! i = Some ni -> r !! (i - 1) = Some prev ->
      r !! i = Some (fexp (- d / alpha) * prev + ni)%fl.
Proof.
  intros Hne Hdelt. destruct noise as [| n0 rest]; [congruence |].
  destruct (for_range_linked (length (n0 :: rest))
              (residuals_body delt alpha (n0 :: rest)) _
              (fun i a prev => residuals_body_step delt alpha (n0 :: rest) i a prev Hdelt)
              (n0 :: zeros (length rest)))
    as (r & Er & Hlen & H0 & Hlink); [cbn; now rewrite length_zeros |].
  exists r. split; [| split; [exact Hlen | split; [exact H0 |]]].
  - rewrite residuals_cell_cons. exact Er.
  - intros i d ni prev Hi Ed Eni Eprev.
    destruct (Hlink i prev Hi Eprev) as (v & Ev & Hv).
    now rewrite Ev, (Hv d ni Ed Eni).
Qed.

(** With unit time steps one pass of the irregular-step body is one
    pass of the body of [noise_corr]. *)
Lemma residuals_body_unit_steps delt alpha noise i a :
  fis0 alpha = false -> Forall (fun d => d = f1) delt ->
  length noise - 1 <= length delt -> 1 <= i < length noise ->
  residuals_body delt alpha noise i a = noise_corr_body alpha noise i a.
Proof.
  intros Hnz Hunit Hdelt Hi.
  destruct (np_get_lt delt (i - 1)) as (d & Ed & Gd); [lia |].
  assert (d = f1) as -> by (exact (proj1 (Forall_lookup _ _) Hunit _ _ Ed)).
  unfold residuals_body, noise_corr_body.
  now rewrite Gd, (py_div_nonzero _ _ Hnz).
Qed.
End ResidualsFacts.

Section IntegratorFacts.
Context {F : Type} `{Scalar F}.
Variable quad : (F -> list F -> F) -> F -> Bound F -> list F -> F * F.

Lemma length_arange (tmax : F) : length (arange tmax) = arange_len tmax.
Proof. unfold arange. now rewrite length_fmap, length_seq. Qed.

Lemma lookup_arange (tmax : F) (i : nat) :
  i < arange_len tmax -> arange tmax !! i = Some (of_nat i).
Proof.
  intros Hi. unfold arange. rewrite list_lookup_fmap, lookup_seq_lt by exact Hi.
  reflexivity.
Qed.

Lemma quad_body_step fam (p t : list F) i (sn : list F) (prev : F) :
  1 <= i < length t -> length sn = length t -> sn !! (i - 1) = Some prev ->
  exists v, quad_body quad fam p t i sn = Ok (<[i:=v]> sn) /\
    forall ti, t !! i = Some ti -> v = fst (quad (impulse fam) f0 (Finite ti) p).
Proof.
  intros Hi Hlen _.
  destruct (np_get_lt t i) as (ti & Eti & Gti); [lia |].
  exists (fst (quad (impulse fam) f0 (Finite ti) p)). split.
  - unfold quad_body. rewrite Gti. cbn [bind]. apply np_set_lt. lia.
  - intros ti' E. rewrite Eti in E. now injection E as <-.
Qed.

(** The integration cell always runs to the end; the numerical sequence
    has one entry per sample time, entry 0 is the initial zero and entry
    [i >= 1] is the quadrature over [[0, t[i]]]. *)
Lemma integrate_cell_spec fam (p : list F) :
  exists c, integrate_cell quad fam p = Ok c /\
    chk_t c = arange (get_tmax fam p) /\
    chk_step c = step fam p /\
    length (chk_stepnum c) = arange_len (get_tmax fam p) /\
    (0 < arange_len (get_tmax fam p) -> chk_stepnum c !! 0 = Some f0) /\
    forall i, 1 <= i < arange_len (get_tmax fam p) ->
      chk_stepnum c !! i =
      Some (fst (quad (impulse fam) f0 (Finite (of_nat i)) p)).
Proof.
  set (t := arange (get_tmax fam p)).
  assert (Ht : length t = arange_len (get_tmax fam p)) by apply length_arange.
  destruct (for_range_linked (length t) (quad_body quad fam p t) _
              (quad_body_step fam p t) (zeros (length t)))
    as (sn & Esn & Hlen & H0 & Hlink); [apply length_zeros |].
  exists {| chk_t := t; chk_step := step fam p; chk_stepnum := sn |}.
  split; [| split; [reflexivity | split; [reflexivity | split; [cbn; lia | split]]]].
  - unfold integrate_cell. fold t. now rewrite Esn.
  - intros Hpos. cbn. rewrite H0. apply lookup_zeros_0. lia.
  - intros i Hi. cbn.
    destruct (lookup_lt_is_Some_2 sn (i - 1)) as [prev Eprev]; [lia |].
    destruct (Hlink i prev) as (v & Ev & Hv); [lia | exact Eprev |].
    rewrite Ev. f_equal. apply Hv. apply lookup_arange. lia.
Qed.

Lemma plt_plot_Ok (x y : list F) : plt_plot x y = Ok tt <-> length x = length y.
Proof.
  unfold plt_plot. destruct (decide (length x = length y)); split;
    intros; (assumption || reflexivity || discriminate || contradiction).
Qed.

Lemma plt_plot_cases (x y : list F) :
  plt_plot x y = Ok tt \/ plt_plot x y = Raise ValueError.
Proof. unfold plt_plot. destruct (decide (length x = length y)); auto. Qed.

(** The cell of FourParam divides every entry of the numerical sequence
    by the quadrature over [[0, inf)]. *)
Lemma fourparam_cell_rescaled fam (p : list F) :
  exists c c', integrate_cell quad fam p = Ok c /\
    fourparam_cell quad fam p = Ok c' /\
    chk_t c' = chk_t c /\ chk_step c' = chk_step c /\
    length (chk_stepnum c') = length (chk_stepnum c) /\
    forall i x, chk_stepnum c !! i = Some x ->
      chk_stepnum c' !! i =
      Some (x / fst (quad (impulse fam) f0 Infinity p))%fl.
Proof.
  destruct (integrate_cell_spec fam p) as (c & Ec & _).
  exists c. eexists. split; [exact Ec |]. split.
  - unfold fourparam_cell. rewrite Ec. reflexivity.
  - cbn. split; [reflexivity |]. split; [reflexivity |].
    split; [apply length_fmap |].
    intros i x Ex. rewrite list_lookup_fmap, Ex. reflexivity.
Qed.
End IntegratorFacts.

(** ** Whole cells compared *)

Section CellsCompared.
Context {F : Type} `{Scalar F}.
Implicit Types noise delt a r : list F.

Lemma ar1_body_length alpha noise i a a' :
  ar1_body alpha noise i a = Ok a' -> length a' = length a.
Proof.
  unfold ar1_body.
  destruct (np_get noise i); [| discriminate]. cbn [bind].
  destruct (np_get a (i - 1)); [| discriminate]. cbn [bind].
  apply np_set_length.
Qed.

Lemma arma_cell_beta0 `{!ZeroLaws F} alpha noise :
  arma_cell alpha f0 noise = ar1_cell alpha noise.
Proof.
  unfold arma_cell, ar1_cell.
  apply (for_range_ext (length noise)).
  - intros i a Hi _. apply arma_body_beta0. now apply elem_of_range1.
  - intros i a a' _ Hlen E. now rewrite (arma_body_length _ _ _ _ _ _ E).
  - apply length_zeros.
Qed.

Lemma arma_body_step alpha beta noise i a prev :
  1 <= i < length noise -> length a = length noise -> a !! (i - 1) = Some prev ->
  exists v, arma_body alpha beta noise i a = Ok (<[i:=v]> a) /\ True.
Proof.
  intros Hi Hlen Eprev.
  destruct (np_get_lt noise i) as (ni & _ & Gni); [lia |].
  destruct (np_get_lt noise (i - 1)) as (nm & _ & Gnm); [lia |].
  exists (ni + nm * beta + prev * alpha)%fl. split; [| exact I].
  unfold arma_body. rewrite Gni. cbn [bind]. rewrite Gnm. cbn [bind].
  rewrite (np_get_Some _ _ _ Eprev). cbn [bind]. apply np_set_lt. lia.
Qed.

Lemma arma_cell_length alpha beta noise :
  exists a, arma_cell alpha beta noise = Ok a /\ length a = length noise.
Proof.
  destruct (for_range_linked (length noise) (arma_body alpha beta noise) _
              (arma_body_step alpha beta noise) (zeros (length noise)))
    as (a & Ea & Hlen & _); [apply length_zeros |].
  exists a. split; assumption.
Qed.

Lemma residuals_cell_unit_steps delt alpha noise :
  fis0 alpha = false -> Forall (fun d => d = f1) delt ->
  length noise - 1 <= length delt ->
  residuals_cell delt alpha noise = noise_corr_cell alpha noise.
Proof.
  intros Hnz Hunit Hdelt. destruct noise as [| n0 rest]; [reflexivity |].
  rewrite residuals_cell_cons, noise_corr_cell_cons.
  apply (for_range_ext (length (n0 :: rest))).
  - intros i a Hi _. apply residuals_body_unit_steps; try assumption.
    now apply elem_of_range1.
  - intros i a a' _ Hlen E. now rewrite (residuals_body_length _ _ _ _ _ _ E).
  - cbn. now rewrite length_zeros.
Qed.

Lemma noise_corr_cell_zero alphatrue noise :
  fis0 alphatrue = true -> 2 <= length noise ->
  noise_corr_cell alphatrue noise = Raise ZeroDivisionError.
Proof.
  intros Hz Hlen. destruct noise as [| n0 [| n1 rest]]; cbn in Hlen; try lia.
  rewrite noise_corr_cell_cons. cbn [length range1 Nat.sub seq for_range].
  unfold noise_corr_body at 1. now rewrite (py_div_zero _ _ Hz).
Qed.
End CellsCompared.

Section CheckFacts.
Context {F : Type} `{Scalar F}.
Variable quad : (F -> list F -> F) -> F -> Bound F -> list F -> F * F.

Lemma compare_cell_Ok (c : Checked F) :
  length (chk_step c) = length (chk_t c) - 1 ->
  length (chk_stepnum c) = length (chk_t c) ->
  compare_cell c = Ok tt.
Proof.
  intros Hs Hn. unfold compare_cell.
  rewrite (proj2 (plt_plot_Ok _ _)) by (rewrite length_drop; lia).
  cbn [bind]. apply plt_plot_Ok. lia.
Qed.

Lemma compare_cell_ValueError (c : Checked F) :
  length (chk_step c) <> length (chk_t c) - 1 ->
  compare_cell c = Raise ValueError.
Proof.
  intros Hs. unfold compare_cell.
  destruct (plt_plot_cases (drop 1 (chk_t c)) (chk_step c)) as [E | E].
  - apply plt_plot_Ok in E. rewrite length_drop in E. lia.
  - now rewrite E.
Qed.

(** The check runs exactly when the analytic array has one entry fewer
    than there are sample times. *)
Lemma check_family_runs fam (p : list F) :
  length (step fam p) = arange_len (get_tmax fam p) - 1 ->
  exists c, check_family quad fam p = Ok c /\ integrate_cell quad fam p = Ok c.
Proof.
  intros Hs.
  destruct (integrate_cell_spec quad fam p) as (c & Ec & Ht & Hstep & Hlen & _).
  exists c. split; [| exact Ec].
  unfold check_family. rewrite Ec. cbn [bind].
  rewrite compare_cell_Ok; [reflexivity | |].
  - rewrite Hstep, Ht, length_arange. exact Hs.
  - rewrite Ht, length_arange. exact Hlen.
Qed.

Lemma check_family_refuses fam (p : list F) :
  length (step fam p) <> arange_len (get_tmax fam p) - 1 ->
  check_family quad fam p = Raise ValueError.
Proof.
  intros Hs.
  destruct (integrate_cell_spec quad fam p) as (c & Ec & Ht & Hstep & _).
  unfold check_family. rewrite Ec. cbn [bind].
  rewrite compare_cell_ValueError; [reflexivity |].
  rewrite Hstep, Ht, length_arange. exact Hs.
Qed.

(** The check of FourParam runs under the same condition, on the rescaled
    numerical sequence. *)
Lemma check_fourparam_runs fam (p : list F) :
  length (step fam p) = arange_len (get_tmax fam p) - 1 ->
  exists c c', integrate_cell quad fam p = Ok c /\
    check_fourparam quad fam p = Ok c' /\
    chk_t c' = chk_t c /\ chk_step c' = chk_step c /\
    length (chk_stepnum c') = length (chk_stepnum c) /\
    forall i x, chk_stepnum c !! i = Some x ->
      chk_stepnum c' !! i =
      Some (x / fst (quad (impulse fam) f0 Infinity p))%fl.
Proof.
  intros Hs.
  destruct (integrate_cell_spec quad fam p) as (c0 & Ec0 & Ht & Hstep & Hlen & _).
  destruct (fourparam_cell_rescaled quad fam p)
    as (c & c' & Ec & Ec' & Ht' & Hstep' & Hlen' & Hdiv).
  rewrite Ec0 in Ec. injection Ec as <-.
  exists c0, c'. split; [exact Ec0 |]. split; [| auto].
  unfold check_fourparam. rewrite Ec'. cbn [bind].
  rewrite compare_cell_Ok; [reflexivity | |].
  - rewrite Hstep', Ht', Hstep, Ht, length_arange. exact Hs.
  - rewrite Hlen', Ht', Ht, length_arange. exact Hlen.
Qed.

Lemma check_fourparam_refuses fam (p : list F) :
  length (step fam p) <> arange_len (get_tmax fam p) - 1 ->
  check_fourparam quad fam p = Raise ValueError.
Proof.
  intros Hs.
  destruct (integrate_cell_spec quad fam p) as (c0 & Ec0 & Ht & Hstep & _).
  destruct (fourparam_cell_rescaled quad fam p)
    as (c & c' & Ec & Ec' & Ht' & Hstep' & _).
  rewrite Ec0 in Ec. injection Ec as <-.
  unfold check_fourparam. rewrite Ec'. cbn [bind].
  rewrite compare_cell_ValueError; [reflexivity |].
  rewrite Hstep', Ht', Hstep, Ht, length_arange. exact Hs.
Qed.
End CheckFacts.

(** ** Facts of the real instance *)

Section RealFacts.
Open Scope R_scope.

Lemma R_is0_false (x : R) : x <> 0 -> R_is0 x = false.
Proof.
  intros Hx. unfold R_is0. destruct (Req_dec_T x 0); [contradiction | reflexivity].
Qed.

Lemma R_is0_true : R_is0 0 = true.
Proof.
  unfold R_is0. destruct (Req_dec_T 0 0); [reflexivity | contradiction].
Qed.

Lemma R_arange_len_3 : R_arange_len 3 = 3%nat.
Proof.
  unfold R_arange_len.
  assert (E : up (Ropp 3) = (-2)%Z) by (symmetry; apply tech_up; simpl; lra).
  now rewrite E.
Qed.

Lemma ln_2_pos : 0 < ln 2.
Proof. rewrite <- ln_1. apply ln_increasing; lra. Qed.

(** The time constant whose decay per unit step is one half. *)
Lemma half_life_decay : fexp (- f1 / (/ ln 2))%fl = 1 / 2.
Proof.
  cbn. pose proof ln_2_pos as Hpos.
  replace (Ropp 1 / / ln 2) with (- ln 2) by (field; lra).
  rewrite exp_Ropp, exp_ln by lra. lra.
Qed.
End RealFacts.

(** Run a cell on a concrete array: unfold the loop and perform each
    indexed store. *)
Ltac run_cell :=
  repeat (cbn; rewrite np_set_lt by (cbn; lia)); cbn.

(** ** The specified recursion *)

Section SpecFacts.
Context {F : Type} `{Scalar F}.
Implicit Types noise r : list F.

Lemma length_ar1_spec_from alpha prev noise :
  length (ar1_spec_from alpha prev noise) = length noise.
Proof.
  revert prev. induction noise as [| x rest IH]; intros prev; [reflexivity |].
  cbn. now rewrite IH.
Qed.

Lemma length_ar1_spec alpha noise : length (ar1_spec alpha noise) = length noise.
Proof. destruct noise; [reflexivity |]. cbn. now rewrite length_ar1_spec_from. Qed.

Lemma ar1_spec_from_linked alpha : forall rest prev k ni p,
  rest !! k = Some ni ->
  (prev :: ar1_spec_from alpha prev rest) !! k = Some p ->
  (prev :: ar1_spec_from alpha prev rest) !! S k = Some (ni + alpha * p)%fl.
Proof.
  induction rest as [| y rest IH]; intros prev k ni p Eni Ep.
  - rewrite lookup_nil in Eni. discriminate.
  - destruct k as [| k].
    + cbn in *. injection Eni as <-. now injection Ep as <-.
    + exact (IH (y + alpha * prev)%fl k ni p Eni Ep).
Qed.

(** The list [ar1_spec] is the sequence the specification describes. *)
Lemma ar1_spec_is_pointwise alpha noise :
  ar1_spec_pointwise alpha noise (ar1_spec alpha noise).
Proof.
  destruct noise as [| x rest]; split; try reflexivity.
  - intros i ni prev Hi. cbn in Hi. lia.
  - intros i ni prev Hi Eni Eprev. cbn [ar1_spec] in *.
    destruct i as [| k]; [lia |].
    replace (S k - 1) with k in Eprev by lia.
    apply ar1_spec_from_linked; [exact Eni | exact Eprev].
Qed.

Lemma recurrence_ext (g g' : F -> F -> F) noise r :
  (forall x y, g x y = g' x y) -> recurrence g noise r -> recurrence g' noise r.
Proof.
  intros Hg Hrec i ni prev Hi Eni Eprev.
  rewrite <- Hg. now apply Hrec.
Qed.

(** A first element and the recursion determine the sequence. *)
Lemma recurrence_unique (g : F -> F -> F) noise r1 r2 :
  length r1 = length noise -> length r2 = length noise ->
  r1 !! 0 = r2 !! 0 ->
  recurrence g noise r1 -> recurrence g noise r2 -> r1 = r2.
Proof.
  intros Hl1 Hl2 H0 Hr1 Hr2. apply list_eq. intros i.
  induction i as [| i IH]; [exact H0 |].
  destruct (decide (S i < length noise)) as [Hlt | Hge].
  - destruct (lookup_lt_is_Some_2 noise (S i) Hlt) as [ni Eni].
    destruct (lookup_lt_is_Some_2 r1 i) as [prev Eprev]; [lia |].
    rewrite (Hr1 (S i) ni prev), (Hr2 (S i) ni prev); try (lia || assumption).
    + reflexivity.
    + replace (S i - 1) with i by lia. now rewrite <- IH.
    + now replace (S i - 1) with i by lia.
  - rewrite !lookup_ge_None_2 by lia. reflexivity.
Qed.

(** Where addition commutes, the cell [noise_corr] computes the specified
    sequence with the coefficient [exp(-1/alphatrue)]. *)
Lemma noise_corr_cell_is_spec alphatrue noise :
  (forall x y : F, (x + y)%fl = (y + x)%fl) ->
  noise <> [] -> fis0 alphatrue = false ->
  noise_corr_cell alphatrue noise =
  Ok (ar1_spec (fexp (- f1 / alphatrue)%fl) noise).
Proof.
  intros Hcomm Hne Hnz.
  destruct (noise_corr_cell_linked alphatrue noise Hne Hnz)
    as (r & Er & Hlen & H0 & Hrec).
  rewrite Er. f_equal.
  destruct (ar1_spec_is_pointwise (fexp (- f1 / alphatrue)%fl) noise) as [S0 Srec].
  apply (recurrence_unique
           (fun ni prev => ni + fexp (- f1 / alphatrue) * prev)%fl noise).
  - exact Hlen.
  - apply length_ar1_spec.
  - now rewrite H0, S0.
  - apply (recurrence_ext _ _ _ _ (fun x y => Hcomm _ _) Hrec).
  - exact Srec.
Qed.
End SpecFacts.

(** * The claims *)

(** ** C1: the AR(1) recursion with regular steps *)

(** C1, as amended. Both regular-step cells return one value per entry of
    the base noise and obey the first-order recursion from index 1 on:
    [a[i] = noise[i] + a[i-1] * alpha] in noisemodel.ipynb and
    [r[i] = exp(-1/alphatrue) * r[i-1] + noise[i]] in
    pastas_synthetic.ipynb.  They differ at index 0: [noise_corr] is seeded
    with [noise[0]], the array [a] keeps its initial zero. *)
Theorem ar1_cells_recurrence {F : Type} `{Scalar F} (alpha alphatrue : F)
    (noise : list F) :
  noise <> [] -> fis0 alphatrue = false ->
  (exists a, ar1_cell alpha noise = Ok a /\ length a = length noise /\
     a !! 0 = Some f0 /\
     recurrence (fun ni prev => ni + prev * alpha)%fl noise a) /\
  (exists r, noise_corr_cell alphatrue noise = Ok r /\ length r = length noise /\
     r !! 0 = noise !! 0 /\
     recurrence (fun ni prev => fexp (- f1 / alphatrue) * prev + ni)%fl noise r).
Proof.
  intros Hne Hnz. split.
  - destruct (ar1_cell_linked alpha noise) as (a & Ea & Hlen & H0 & Hrec).
    exists a. repeat split; try assumption.
    rewrite H0. apply lookup_zeros_0.
    destruct noise; [congruence | cbn; lia].
  - now apply noise_corr_cell_linked.
Qed.

Lemma ar1_cells_recurrence_witness :
  ([1%R; 2%R] <> [] /\ fis0 2%R = false) /\
  (exists a, ar1_cell (4 / 5)%R [1%R; 2%R] = Ok a /\ length a = 2 /\
     a !! 0 = Some 0%R /\
     recurrence (fun ni prev => ni + prev * (4 / 5))%R [1%R; 2%R] a) /\
  (exists r, noise_corr_cell 2%R [1%R; 2%R] = Ok r /\ length r = 2 /\
     r !! 0 = Some 1%R /\
     recurrence (fun ni prev => exp (Ropp 1 / 2) * prev + ni)%R [1%R; 2%R] r).
Proof.
  assert (Hnz : fis0 2%R = false) by (apply R_is0_false; lra).
  split; [split; [discriminate | exact Hnz] |].
  assert (Hne : [1%R; 2%R] <> []) by discriminate.
  exact (ar1_cells_recurrence (F:=R) (4 / 5)%R 2%R [1%R; 2%R] Hne Hnz).
Defined.

(** C1 fails on the cell of noisemodel.ipynb: with [alpha = 0.8] and the
    base noise [[1]] it returns [[0]], whose first element is not
    [noise[0]]. *)
Lemma ar1_cell_not_seeded :
  ar1_cell (4 / 5)%R [1%R] = Ok [0%R] /\
  ~ ar1_spec_pointwise (4 / 5)%R [1%R] [0%R].
Proof.
  split; [reflexivity |].
  intros [H0 _]. cbn in H0. injection H0. lra.
Qed.

(** ** C3: unit time steps *)

(** C3, as amended. With every time step equal to 1 and a non-zero
    [alpha], the cell with irregular steps returns, element for element and
    from the first element on, what the fixed-coefficient cell
    [noise_corr] of pastas_synthetic.ipynb returns, whose coefficient is
    [exp(-1/alpha)] and whose first element is [noise[0]]; where addition
    commutes this is the specified sequence [r[0] = noise[0]],
    [r[i] = noise[i] + exp(-1/alpha) * r[i-1]]. *)
Theorem residuals_unit_steps_noise_corr {F : Type} `{Scalar F} (alpha : F)
    (delt noise : list F) :
  noise <> [] -> fis0 alpha = false ->
  Forall (fun d => d = f1) delt -> length delt = length noise - 1 ->
  exists r, residuals_cell delt alpha noise = Ok r /\
    noise_corr_cell alpha noise = Ok r /\
    length r = length noise /\ r !! 0 = noise !! 0 /\
    ((forall x y : F, (x + y)%fl = (y + x)%fl) ->
     r = ar1_spec (fexp (- f1 / alpha)%fl) noise).
Proof.
  intros Hne Hnz Hunit Hdelt.
  destruct (noise_corr_cell_linked alpha noise Hne Hnz) as (r & Er & Hlen & H0 & _).
  exists r. split; [| split; [exact Er | split; [exact Hlen | split; [exact H0 |]]]].
  - rewrite residuals_cell_unit_steps; [exact Er | assumption.. | lia].
  - intros Hcomm.
    rewrite (noise_corr_cell_is_spec alpha noise Hcomm Hne Hnz) in Er.
    now injection Er.
Qed.

Lemma residuals_unit_steps_noise_corr_witness :
  ([1%R; 0%R; 3%R] <> [] /\ fis0 2%R = false /\
   Forall (fun d => d = 1%R) [1%R; 1%R] /\ length [1%R; 1%R] = 3 - 1) /\
  exists r, residuals_cell [1%R; 1%R] 2%R [1%R; 0%R; 3%R] = Ok r /\
    noise_corr_cell 2%R [1%R; 0%R; 3%R] = Ok r /\
    length r = 3 /\ r !! 0 = Some 1%R /\
    r = ar1_spec (exp (Ropp 1 / 2)) [1%R; 0%R; 3%R].
Proof.
  assert (Hnz : fis0 2%R = false) by (apply R_is0_false; lra).
  assert (Hunit : Forall (fun d => d = 1%R) [1%R; 1%R]) by (repeat constructor).
  assert (Hne : [1%R; 0%R; 3%R] <> []) by discriminate.
  split; [repeat split; assumption |].
  destruct (residuals_unit_steps_noise_corr (F:=R) 2%R [1%R; 1%R] [1%R; 0%R; 3%R]
              Hne Hnz Hunit eq_refl) as (r & E1 & E2 & Hlen & H0 & Hspec).
  exists r. repeat split; try assumption.
  apply Hspec. intros x y. apply Rplus_comm.
Defined.

(** C3 fails against the fixed-coefficient cell of noisemodel.ipynb: with
    unit steps, [alpha = 2] and the base noise [[1, 0]] the cell with
    irregular steps returns [[1, exp(-1/2)]], the cell [a] with coefficient
    [exp(-1/2)] returns [[0, 0]]. *)
Lemma residuals_vs_zero_seeded :
  residuals_cell [1%R] 2%R [1%R; 0%R] = Ok [1%R; exp (Ropp 1 / 2)] /\
  ar1_cell (exp (Ropp 1 / 2)) [1%R; 0%R] = Ok [0%R; 0%R] /\
  [1%R; exp (Ropp 1 / 2)] <> [0%R; 0%R].
Proof.
  split; [| split].
  - unfold residuals_cell. run_cell. do 3 f_equal. lra.
  - unfold ar1_cell. run_cell. do 3 f_equal. lra.
  - intros E. injection E. lra.
Qed.

(** ** C4: ARMA(1,1) without the moving-average term *)

(** C4, as amended. With [beta = 0] the ARMA(1,1) cell returns, element for
    element, what the AR(1) cell of noisemodel.ipynb returns: the first
    element is the initial zero and
    [a[i] = noise[i] + a[i-1] * alpha] from index 1 on. *)
Theorem arma_beta0_ar1_cell {F : Type} `{Scalar F} `{!ZeroLaws F} (alpha : F)
    (noise : list F) :
  exists a, arma_cell alpha f0 noise = Ok a /\ ar1_cell alpha noise = Ok a /\
    length a = length noise /\ (noise <> [] -> a !! 0 = Some f0) /\
    recurrence (fun ni prev => ni + prev * alpha)%fl noise a.
Proof.
  destruct (ar1_cell_linked alpha noise) as (a & Ea & Hlen & H0 & Hrec).
  exists a. rewrite arma_cell_beta0.
  repeat split; try assumption.
  intros Hne. rewrite H0. apply lookup_zeros_0.
  destruct noise; [congruence | cbn; lia].
Qed.

Lemma arma_beta0_ar1_cell_witness :
  ZeroLaws R /\
  exists a, arma_cell (19 / 20)%R 0%R [1%R; 2%R; 3%R] = Ok a /\
    ar1_cell (19 / 20)%R [1%R; 2%R; 3%R] = Ok a /\
    length a = 3 /\ ([1%R; 2%R; 3%R] <> [] -> a !! 0 = Some 0%R) /\
    recurrence (fun ni prev => ni + prev * (19 / 20))%R [1%R; 2%R; 3%R] a.
Proof.
  split; [exact R_zero_laws |].
  exact (arma_beta0_ar1_cell (F:=R) (19 / 20)%R [1%R; 2%R; 3%R]).
Defined.

(** C4 fails for the recursion as specified: with [beta = 0],
    [alpha = 0.95] and the base noise [[1, 0]] the ARMA(1,1) cell returns
    [[0, 0]], the specified AR(1) sequence is [[1, 0.95]]. *)
Lemma arma_beta0_not_seeded :
  arma_cell (19 / 20)%R 0%R [1%R; 0%R] = Ok [0%R; 0%R] /\
  ar1_spec (19 / 20)%R [1%R; 0%R] = [1%R; (19 / 20)%R] /\
  [0%R; 0%R] <> [1%R; (19 / 20)%R].
Proof.
  split; [| split].
  - unfold arma_cell. run_cell. do 3 f_equal. lra.
  - cbn. do 2 f_equal. lra.
  - intros E. injection E. lra.
Qed.

(** ** C5: a zero coefficient *)

(** C5, as amended. With [alpha = 0] the AR(1) cell of noisemodel.ipynb
    returns the base noise from index 1 on, [a[i] = noise[i]] for every
    [i >= 1], behind its initial zero at index 0; the cell [noise_corr] of
    pastas_synthetic.ipynb cannot take a zero [alphatrue]: its first pass
    raises [ZeroDivisionError]. *)
Theorem ar1_cell_alpha0 {F : Type} `{Scalar F} `{!ZeroLaws F} (noise : list F) :
  (exists a, ar1_cell f0 noise = Ok a /\ length a = length noise /\
     (noise <> [] -> a !! 0 = Some f0) /\
     forall i, 1 <= i -> a !! i = noise !! i) /\
  (forall z : F, fis0 z = true -> 2 <= length noise ->
     noise_corr_cell z noise = Raise ZeroDivisionError).
Proof.
  split; [| intros z; apply noise_corr_cell_zero].
  destruct (ar1_cell_linked f0 noise) as (a & Ea & Hlen & H0 & Hrec).
  exists a. split; [exact Ea |]. split; [exact Hlen |]. split.
  - intros Hne. rewrite H0. apply lookup_zeros_0.
    destruct noise; [congruence | cbn; lia].
  - intros i Hi. destruct (decide (i < length noise)) as [Hlt | Hge].
    + destruct (lookup_lt_is_Some_2 noise i Hlt) as [ni Eni].
      destruct (lookup_lt_is_Some_2 a (i - 1)) as [prev Eprev]; [lia |].
      rewrite (Hrec i ni prev) by (lia || assumption).
      now rewrite Eni, fmul_0_r, fadd_0_r.
    + rewrite !lookup_ge_None_2 by lia. reflexivity.
Qed.

Lemma ar1_cell_alpha0_witness :
  ZeroLaws R /\
  (exists a, ar1_cell 0%R [1%R; 2%R; 3%R] = Ok a /\ length a = 3 /\
     ([1%R; 2%R; 3%R] <> [] -> a !! 0 = Some 0%R) /\
     forall i, 1 <= i -> a !! i = [1%R; 2%R; 3%R] !! i) /\
  (forall z : R, fis0 z = true -> 2 <= 3 ->
     noise_corr_cell z [1%R; 2%R; 3%R] = Raise ZeroDivisionError).
Proof.
  split; [exact R_zero_laws |].
  exact (ar1_cell_alpha0 (F:=R) [1%R; 2%R; 3%R]).
Defined.

(** C5 fails at index 0: with [alpha = 0] and the base noise [[1, 2]] the
    cell returns [[0, 2]]. *)
Lemma ar1_cell_alpha0_first :
  ar1_cell 0%R [1%R; 2%R] = Ok [0%R; 2%R] /\ [0%R; 2%R] <> [1%R; 2%R].
Proof.
  split.
  - unfold ar1_cell. run_cell. do 3 f_equal. lra.
  - intros E. injection E. lra.
Qed.

(** ** C6: the unit impulse *)

(** C6, as amended. On the base noise [[1, 0, 0, 0]] the cell
    [noise_corr], seeded with [noise[0]], returns [[1, 0.5, 0.25, 0.125]]
    when its coefficient per step [exp(-1/alphatrue)] is one half. *)
Theorem noise_corr_half (alphatrue : R) :
  alphatrue <> 0%R -> fexp (- f1 / alphatrue)%fl = (1 / 2)%R ->
  noise_corr_cell alphatrue [1%R; 0%R; 0%R; 0%R] =
  Ok [1%R; (1 / 2)%R; (1 / 4)%R; (1 / 8)%R].
Proof.
  intros Hnz Hhalf.
  unfold noise_corr_cell. run_cell. unfold noise_corr_body.
  rewrite !py_div_nonzero by (apply R_is0_false; exact Hnz).
  run_cell. cbn in Hhalf. rewrite Hhalf.
  repeat f_equal; lra.
Qed.

Lemma noise_corr_half_witness :
  ((/ ln 2)%R <> 0%R /\ fexp (- f1 / (/ ln 2)%R)%fl = (1 / 2)%R) /\
  noise_corr_cell (/ ln 2)%R [1%R; 0%R; 0%R; 0%R] =
  Ok [1%R; (1 / 2)%R; (1 / 4)%R; (1 / 8)%R].
Proof.
  assert (Hnz : (/ ln 2)%R <> 0%R)
    by (apply Rinv_neq_0_compat; pose proof ln_2_pos; lra).
  split; [split; [exact Hnz | exact half_life_decay] |].
  exact (noise_corr_half (/ ln 2)%R Hnz half_life_decay).
Defined.

(** C6 fails on the cell of noisemodel.ipynb: with [alpha = 0.5] and the
    base noise [[1, 0, 0, 0]] it returns [[0, 0, 0, 0]]. *)
Lemma ar1_cell_half :
  ar1_cell (1 / 2)%R [1%R; 0%R; 0%R; 0%R] = Ok [0%R; 0%R; 0%R; 0%R] /\
  [0%R; 0%R; 0%R; 0%R] <> [1%R; (1 / 2)%R; (1 / 4)%R; (1 / 8)%R].
Proof.
  split.
  - unfold ar1_cell. run_cell. repeat f_equal; lra.
  - intros E. injection E. lra.
Qed.

(** ** C8: the two sequences of a check *)

(** C8, as amended. The numerical step-response sequence has one entry per
    integer time of [[0, tmax)].  In the cells of Gamma, Exponential,
    Hantush, Polder, DoubleExponential and Kraijenhoff its entry 0, when
    there is a sample time, is the initial 0 and its entry [i >= 1] is the
    quadrature of the impulse response over [[0, t[i]]]; in the cell of
    FourParam each of these entries is divided by the quadrature over
    [[0, inf)].  The analytic sequence is plotted against [t[1:]]: a check
    runs exactly when the analytic sequence has the length of [t[1:]], one
    entry fewer than the numerical sequence when there is a sample time
    and none, like the numerical sequence, when there is none; with any
    other length the comparison raises [ValueError]. *)
Theorem check_family_domains {F : Type} `{Scalar F}
    (quad : (F -> list F -> F) -> F -> Bound F -> list F -> F * F)
    (fam : Family F) (p : list F) :
  let len := arange_len (get_tmax fam p) in
  let total := fst (quad (impulse fam) f0 Infinity p) in
  let integral := fun i : nat => fst (quad (impulse fam) f0 (Finite (of_nat i)) p) in
  (length (step fam p) = len - 1 ->
   exists c c', check_family quad fam p = Ok c /\
     check_fourparam quad fam p = Ok c' /\
     chk_t c = arange (get_tmax fam p) /\ chk_step c = step fam p /\
     chk_t c' = chk_t c /\ chk_step c' = chk_step c /\
     length (chk_t c) = len /\
     length (chk_stepnum c) = length (chk_t c) /\
     length (chk_stepnum c') = length (chk_t c) /\
     length (chk_step c) = length (drop 1 (chk_t c)) /\
     (0 < len -> S (length (chk_step c)) = length (chk_stepnum c)) /\
     (len = 0 -> chk_step c = [] /\ chk_stepnum c = [] /\ chk_stepnum c' = []) /\
     (0 < len ->
      chk_stepnum c !! 0 = Some f0 /\
      chk_stepnum c' !! 0 = Some (f0 / total)%fl) /\
     (forall i, 1 <= i < len ->
      chk_stepnum c !! i = Some (integral i) /\
      chk_stepnum c' !! i = Some (integral i / total)%fl)) /\
  (length (step fam p) <> len - 1 ->
   check_family quad fam p = Raise ValueError /\
   check_fourparam quad fam p = Raise ValueError).
Proof.
  intros len total integral. split.
  - intros Hs.
    destruct (check_family_runs quad fam p Hs) as (c & Ec & Ei).
    destruct (check_fourparam_runs quad fam p Hs)
      as (c0 & c' & Ei0 & Ec' & Ht' & Hstep' & Hlen' & Hdiv).
    rewrite Ei in Ei0. injection Ei0 as <-.
    destruct (integrate_cell_spec quad fam p)
      as (c0 & Ei0 & Ht & Hstep & Hlen & H0 & Hq).
    rewrite Ei in Ei0. injection Ei0 as <-.
    assert (Htl : length (chk_t c) = len) by (rewrite Ht; apply length_arange).
    exists c, c'. split; [exact Ec |]. split; [exact Ec' |].
    split; [exact Ht |]. split; [exact Hstep |].
    split; [exact Ht' |]. split; [exact Hstep' |]. split; [exact Htl |].
    split; [fold len in Hlen; lia |]. split; [fold len in Hlen; lia |].
    split; [rewrite length_drop, Hstep; lia |].
    split; [intros Hpos; fold len in Hlen; rewrite Hstep; lia |].
    split; [| split].
    + intros Hz. fold len in Hlen.
      split; [apply length_zero_iff_nil; rewrite Hstep; lia |].
      split; apply length_zero_iff_nil; lia.
    + intros Hpos. split; [now apply H0 |]. apply Hdiv. now apply H0.
    + intros i Hi. split; [now apply Hq |]. apply Hdiv. now apply Hq.
  - intros Hs. split; [now apply check_family_refuses |].
    now apply check_fourparam_refuses.
Qed.

Lemma check_family_domains_witness :
  length (step const_family [5%R]) = arange_len (get_tmax const_family [5%R]) - 1 /\
  exists c c', check_family quad_one_point const_family [5%R] = Ok c /\
    check_fourparam quad_one_point const_family [5%R] = Ok c' /\
    chk_t c = arange (get_tmax const_family [5%R]) /\
    chk_step c = step const_family [5%R] /\
    chk_t c' = chk_t c /\ chk_step c' = chk_step c /\
    length (chk_t c) = arange_len (get_tmax const_family [5%R]) /\
    length (chk_stepnum c) = length (chk_t c) /\
    length (chk_stepnum c') = length (chk_t c) /\
    length (chk_step c) = length (drop 1 (chk_t c)) /\
    (0 < arange_len (get_tmax const_family [5%R]) ->
     S (length (chk_step c)) = length (chk_stepnum c)) /\
    (arange_len (get_tmax const_family [5%R]) = 0 ->
     chk_step c = [] /\ chk_stepnum c = [] /\ chk_stepnum c' = []) /\
    (0 < arange_len (get_tmax const_family [5%R]) ->
     chk_stepnum c !! 0 = Some 0%R /\
     chk_stepnum c' !! 0 = Some (0 / 1)%R) /\
    (forall i, 1 <= i < arange_len (get_tmax const_family [5%R]) ->
     chk_stepnum c !! i =
       Some (fst (quad_one_point (impulse const_family) 0%R (Finite (INR i)) [5%R])) /\
     chk_stepnum c' !! i =
       Some (fst (quad_one_point (impulse const_family) 0%R (Finite (INR i)) [5%R]) / 1)%R).
Proof.
  assert (Hs : length (step const_family [5%R]) =
               arange_len (get_tmax const_family [5%R]) - 1)
    by (cbn; now rewrite R_arange_len_3).
  split; [exact Hs |].
  exact (proj1 (check_family_domains quad_one_point const_family [5%R]) Hs).
Defined.

(** C8 fails on the lengths: for the family with a constant impulse
    response the check runs, and leaves an analytic sequence of 2 entries
    and a numerical sequence of 3. *)
Lemma check_family_lengths_differ :
  exists c, check_family quad_one_point const_family [5%R] = Ok c /\
    length (chk_step c) = 2 /\ length (chk_stepnum c) = 3 /\
    length (chk_step c) <> length (chk_stepnum c).
Proof.
  destruct (check_family_runs quad_one_point const_family [5%R]) as (c & Ec & Ei);
    [cbn; now rewrite R_arange_len_3 |].
  destruct (integrate_cell_spec quad_one_point const_family [5%R])
    as (c' & Ei' & _ & Hstep & Hlen & _).
  rewrite Ei in Ei'. injection Ei' as <-.
  exists c. split; [exact Ec |].
  assert (H2 : length (chk_step c) = 2) by now rewrite Hstep.
  assert (H3 : length (chk_stepnum c) = 3)
    by (rewrite Hlen; cbn; apply R_arange_len_3).
  repeat split; try assumption. lia.
Qed.

(** ** C9: one value per time step *)

(** C9, as amended. The ARMA(1,1) cell returns one value per entry of the
    base noise, whatever its length; the AR(1) cell with irregular steps
    does so for a base noise of length [n >= 1] with its [n - 1] time
    steps. *)
Theorem noise_cells_length {F : Type} `{Scalar F} (alpha beta : F)
    (delt noise : list F) :
  (exists a, arma_cell alpha beta noise = Ok a /\ length a = length noise) /\
  (noise <> [] -> length delt = length noise - 1 ->
   exists r, residuals_cell delt alpha noise = Ok r /\ length r = length noise).
Proof.
  split; [apply arma_cell_length |].
  intros Hne Hdelt.
  destruct (residuals_cell_linked delt alpha noise Hne) as (r & Er & Hlen & _);
    [lia |].
  exists r. split; assumption.
Qed.

Lemma noise_cells_length_witness :
  ([1%R; 2%R; 3%R] <> [] /\ length [1%R; 14%R] = 3 - 1) /\
  (exists a, arma_cell (19 / 20)%R (1 / 10)%R [1%R; 2%R; 3%R] = Ok a /\
     length a = 3) /\
  (exists r, residuals_cell [1%R; 14%R] (19 / 20)%R [1%R; 2%R; 3%R] = Ok r /\
     length r = 3).
Proof.
  assert (Hne : [1%R; 2%R; 3%R] <> []) by discriminate.
  split; [split; [exact Hne | reflexivity] |].
  destruct (noise_cells_length (F:=R) (19 / 20)%R (1 / 10)%R [1%R; 14%R]
              [1%R; 2%R; 3%R]) as [Ha Hr].
  split; [exact Ha | exact (Hr Hne eq_refl)].
Defined.

(** C9 fails on the empty series: the cell with irregular steps reads
    [noise[0]] first and raises [IndexError]. *)
Lemma residuals_cell_empty :
  residuals_cell (ho_delt []) 50%R [] = Raise IndexError.
Proof. reflexivity. Qed.

(** ** C10: the entry at time zero *)

(** C10. When there is a sample time at all, the numerical step-response
    sequence of the integration cell has the value 0 at index 0, the time
    0: the array starts as zeros and the loop writes from index 1 on.  The
    cell of FourParam then divides every entry by the total integral: its
    entry 0 is that zero divided by the total, which is 0 whenever the
    total is not zero, zero divided by a non-zero number being zero. *)
Theorem stepnum_zero_at_0 {F : Type} `{Scalar F}
    (quad : (F -> list F -> F) -> F -> Bound F -> list F -> F * F)
    (fam : Family F) (p : list F) :
  0 < arange_len (get_tmax fam p) ->
  (exists c, integrate_cell quad fam p = Ok c /\
     length (chk_stepnum c) = length (chk_t c) /\
     chk_t c !! 0 = Some (of_nat 0) /\
     chk_stepnum c !! 0 = Some f0) /\
  (exists c, fourparam_cell quad fam p = Ok c /\
     chk_stepnum c !! 0 = Some (f0 / fourparam_total quad fam p)%fl /\
     (ZeroDivLaw F -> fis0 (fourparam_total quad fam p) = false ->
      chk_stepnum c !! 0 = Some f0)).
Proof.
  intros Hpos.
  destruct (integrate_cell_spec quad fam p) as (c & Ec & Ht & _ & Hlen & H0 & _).
  split.
  - exists c. split; [exact Ec |].
    rewrite Ht, length_arange, lookup_arange by exact Hpos. auto.
  - destruct (fourparam_cell_rescaled quad fam p) as (c1 & c' & Ec1 & Ec' & _ & _ & _ & Hq).
    rewrite Ec in Ec1. injection Ec1 as <-.
    assert (E0 : chk_stepnum c' !! 0 = Some (f0 / fourparam_total quad fam p)%fl)
      by (apply Hq; auto).
    exists c'. split; [exact Ec' |]. split; [exact E0 |].
    intros Hlaw Hnz. rewrite E0. f_equal. now apply fdiv_0_l.
Qed.

Lemma stepnum_zero_at_0_witness :
  (0 < arange_len (get_tmax const_family [5%R]) /\
   ZeroDivLaw R /\ fis0 (fourparam_total quad_one_point const_family [5%R]) = false) /\
  (exists c, integrate_cell quad_one_point const_family [5%R] = Ok c /\
     length (chk_stepnum c) = length (chk_t c) /\
     chk_t c !! 0 = Some (INR 0) /\
     chk_stepnum c !! 0 = Some 0%R) /\
  (exists c, fourparam_cell quad_one_point const_family [5%R] = Ok c /\
     chk_stepnum c !! 0 = Some 0%R).
Proof.
  assert (Hpos : 0 < arange_len (get_tmax const_family [5%R]))
    by (cbn; rewrite R_arange_len_3; lia).
  assert (Hnz : fis0 (fourparam_total quad_one_point const_family [5%R]) = false)
    by (apply R_is0_false; cbn; lra).
  split; [split; [exact Hpos | split; [exact R_zero_div_law | exact Hnz]] |].
  destruct (stepnum_zero_at_0 quad_one_point const_family [5%R] Hpos)
    as [Hplain (c & Ec & _ & Hzero)].
  split; [exact Hplain |].
  exists c. split; [exact Ec | exact (Hzero R_zero_div_law Hnz)].
Defined.

(** * Further properties of the notebooks *)

(** ** Loops with an invariant *)

Section LoopInvariant.
Context {S : Type}.
Variable I : nat -> S -> Prop.
Variable body : nat -> S -> Result S.

Lemma for_range_invariant k : forall s a,
  I s a ->
  (forall i a, s <= i < s + k -> I i a -> exists a', body i a = Ok a' /\ I (Datatypes.S i) a') ->
  exists r, for_range (seq s k) body a = Ok r /\ I (s + k) r.
Proof.
  induction k as [| k IH]; intros s a Ha Hstep.
  - exists a. rewrite Nat.add_0_r. split; [reflexivity | exact Ha].
  - destruct (Hstep s a) as (a' & Ea & Ha'); [lia | exact Ha |].
    destruct (IH (Datatypes.S s) a' Ha') as (r & Er & Hr).
    + intros i b Hi. apply Hstep. lia.
    + exists r. cbn [seq for_range]. rewrite Ea. cbn [bind].
      split; [exact Er |]. now replace (s + Datatypes.S k) with (Datatypes.S s + k) by lia.
Qed.
End LoopInvariant.

(** ** The synthetic head *)

Section HeadFacts.
Context {F : Type} `{Scalar F}.
Implicit Types rain step h v : list F.

(** A slice that fits is summed entry by entry; the rest of the array is
    untouched. *)
Lemma slice_add_fits h i v :
  i + length v <= length h ->
  exists h', slice_add h i v = Ok h' /\ length h' = length h /\
    (forall k, k < i -> h' !! k = h !! k) /\
    (forall k, i + length v <= k -> h' !! k = h !! k) /\
    (forall k x y, i <= k -> h !! k = Some x -> v !! (k - i) = Some y ->
       h' !! k = Some (x + y)%fl).
Proof.
  intros Hfit. eexists. split; [| split; [| split; [| split]]].
  - unfold slice_add. cbn zeta.
    destruct (decide (Nat.min (i + length v) (length h) - Nat.min i (length h) = length v));
      [reflexivity | lia].
  - rewrite !length_app, length_take, length_zip_with, length_take, !length_drop. lia.
  - intros k Hk. rewrite lookup_app_l by (rewrite length_take; lia).
    apply lookup_take_lt. exact Hk.
  - intros k Hk.
    rewrite lookup_app_r by (rewrite length_take; lia).
    rewrite lookup_app_r
      by (rewrite length_take, length_zip_with, length_take, length_drop; lia).
    rewrite length_take, length_zip_with, length_take, length_drop, lookup_drop.
    f_equal. lia.
  - intros k x y Hk Ex Ey.
    assert (Hky : k - i < length v) by (apply lookup_lt_is_Some; eauto).
    rewrite lookup_app_r by (rewrite length_take; lia).
    rewrite lookup_app_l
      by (rewrite length_take, length_zip_with, length_take, length_drop; lia).
    rewrite length_take. replace (k - Nat.min i (length h)) with (k - i) by lia.
    rewrite lookup_zip_with, lookup_take_lt, lookup_drop by exact Hky.
    replace (i + (k - i)) with k by lia. now rewrite Ex, Ey.
Qed.

Lemma head_sum_S dtrue rain step k m :
  head_sum dtrue rain step k (S m) =
  head_term rain step k (head_sum dtrue rain step k m) m.
Proof. unfold head_sum. now rewrite seq_S, fold_left_app. Qed.

(** The days after [k] add nothing to the head of day [k]. *)
Lemma head_sum_after dtrue rain step k m :
  k < m -> head_sum dtrue rain step k m = head_sum dtrue rain step k (S k).
Proof.
  induction m as [| m IH]; intros Hk; [lia |].
  destruct (decide (k = m)) as [-> | Hne]; [reflexivity |].
  rewrite head_sum_S, IH by lia.
  unfold head_term. destruct (decide (m <= k)); [lia | reflexivity].
Qed.

(** One pass of the loop keeps the length of [h] and moves every entry
    from the sum over [i] days to the sum over [i + 1] days. *)
Lemma head_body_step dtrue rain step i h :
  i < length rain -> length h = length rain + length step ->
  (forall k, k < length h -> h !! k = Some (head_sum dtrue rain step k i)) ->
  exists h', head_body rain step i h = Ok h' /\
    length h' = length rain + length step /\
    forall k, k < length h' -> h' !! k = Some (head_sum dtrue rain step k (S i)).
Proof.
  intros Hi Hlen Hinv.
  destruct (np_get_lt rain i Hi) as (ri & Eri & Gri).
  destruct (slice_add_fits h i ((fun s => ri * s)%fl <$> step))
    as (h' & Eh' & Hlen' & Hlow & Hhigh & Hmid); [rewrite length_fmap; lia |].
  rewrite length_fmap in Hhigh.
  exists h'. split; [| split; [lia |]].
  - unfold head_body. rewrite Gri. exact Eh'.
  - intros k Hk. rewrite head_sum_S. unfold head_term. rewrite Eri.
    destruct (decide (i <= k)) as [Hik | Hik].
    + destruct (step !! (k - i)) as [sj |] eqn:Esj.
      * apply (Hmid k); [exact Hik | apply Hinv; lia |].
        now rewrite list_lookup_fmap, Esj.
      * rewrite Hhigh by (apply lookup_ge_None in Esj; lia).
        apply Hinv. lia.
    + rewrite Hlow by lia. apply Hinv. lia.
Qed.

Lemma head_array_sums dtrue rain step :
  exists head, head_array dtrue rain step = Ok head /\
    length head = length rain /\
    forall k, k < length rain ->
      head !! k = Some (head_sum dtrue rain step k (length rain)).
Proof.
  destruct (for_range_invariant
              (fun i h => i <= length rain /\ length h = length rain + length step /\
                 forall k, k < length h -> h !! k = Some (head_sum dtrue rain step k i))
              (head_body rain step) (length rain) 0
              (replicate (length rain + length step) (dtrue * f1)%fl))
    as (h & Eh & _ & Hlen & Hsum).
  - split; [lia |]. split; [apply length_replicate |].
    intros k Hk. rewrite length_replicate in Hk.
    now rewrite lookup_replicate_2.
  - intros i h Hi (_ & Hlen & Hinv).
    destruct (head_body_step dtrue rain step i h) as (h' & Eh' & Hlen' & Hinv');
      [lia | exact Hlen | exact Hinv |].
    exists h'. split; [exact Eh' |]. split; [lia |]. split; [exact Hlen' | exact Hinv'].
  - exists (take (length rain) h). split; [| split].
    + unfold head_array, range0. rewrite Eh. reflexivity.
    + rewrite length_take. lia.
    + intros k Hk. rewrite lookup_take_lt by exact Hk. apply Hsum. lia.
Qed.

Lemma fold_left_agree {A B : Type} (f g : A -> B -> A) (l : list B) (a : A) :
  (forall acc x, x ∈ l -> f acc x = g acc x) -> fold_left f l a = fold_left g l a.
Proof.
  revert a. induction l as [| x l IH]; intros a Hfg; [reflexivity |].
  cbn. rewrite (Hfg a x) by left. apply IH.
  intros acc y Hy. apply Hfg. now right.
Qed.

Lemma fold_left_fixed {A B : Type} (f : A -> B -> A) (l : list B) (a : A) :
  (forall x, x ∈ l -> f a x = a) -> fold_left f l a = a.
Proof.
  induction l as [| x l IH]; intros Hf; [reflexivity |].
  cbn. rewrite (Hf x) by left. apply IH.
  intros y Hy. apply Hf. now right.
Qed.
End HeadFacts.

Section HeadRowFacts.
Context {F : Type} `{Scalar F}.
Implicit Types rain : list (Z * F).

Lemma data_frame_rows dtrue rain (step vals : list F) :
  length vals = length rain ->
  (forall k, k < length rain ->
     vals !! k = Some (head_sum dtrue (rain.*2) step k (S k))) ->
  data_frame (rain.*1) vals = Ok (head_rows dtrue rain step).
Proof.
  intros Hlen Hv. unfold data_frame. rewrite length_fmap.
  destruct (decide (length rain = length vals)); [| lia].
  f_equal. apply list_eq. intros k. unfold head_rows.
  rewrite lookup_zip_with, list_lookup_fmap, list_lookup_imap.
  destruct (rain !! k) as [row |] eqn:E; [| reflexivity].
  cbn. rewrite Hv by (apply lookup_lt_Some in E; exact E). reflexivity.
Qed.

(** The cell never raises, and leaves the rows of the window. *)
Lemma head_cell_rows lo hi dtrue rain (step : list F) :
  head_cell lo hi dtrue rain step =
  Ok (date_window lo hi (head_rows dtrue rain step)).
Proof.
  destruct (head_array_sums dtrue (rain.*2) step) as (vals & Ev & Hlen & Hs).
  rewrite length_fmap in Hlen, Hs.
  unfold head_cell. rewrite Ev. cbn [bind].
  rewrite (data_frame_rows dtrue rain step vals Hlen); [reflexivity |].
  intros k Hk. rewrite Hs by exact Hk. f_equal. now apply head_sum_after.
Qed.

Lemma fst_head_rows dtrue rain (step : list F) :
  (head_rows dtrue rain step).*1 = rain.*1.
Proof.
  apply list_eq. intros k. unfold head_rows.
  rewrite !list_lookup_fmap, list_lookup_imap.
  now destruct (rain !! k).
Qed.

Lemma elem_of_head_rows dtrue rain (step : list F) (day : Z) (v : F) :
  (day, v) ∈ head_rows dtrue rain step <->
  exists k amount, rain !! k = Some (day, amount) /\
    v = head_sum dtrue (rain.*2) step k (S k).
Proof.
  unfold head_rows. rewrite list_elem_of_lookup. split.
  - intros (k & Ek). rewrite list_lookup_imap in Ek.
    destruct (rain !! k) as [[d x] |] eqn:E; [| discriminate].
    cbn in Ek. injection Ek as <- <-. now exists k, x.
  - intros (k & x & Ek & ->). exists k.
    now rewrite list_lookup_imap, Ek.
Qed.

(** The rows of the first days depend on the rain of these days only. *)
Lemma head_rows_take dtrue rain1 rain2 (step : list F) (k : nat) :
  take (S k) rain1 = take (S k) rain2 ->
  take (S k) (head_rows dtrue rain1 step) = take (S k) (head_rows dtrue rain2 step).
Proof.
  intros Hagree.
  assert (Hrow : forall i, i <= k -> rain1 !! i = rain2 !! i).
  { intros i Hi.
    rewrite <- (lookup_take_lt rain1 (S k) i), <- (lookup_take_lt rain2 (S k) i) by lia.
    now rewrite Hagree. }
  apply list_eq. intros i. destruct (decide (i < S k)) as [Hi | Hi].
  - assert (Hsum : head_sum dtrue (rain1.*2) step i (S i) =
                   head_sum dtrue (rain2.*2) step i (S i)).
    { unfold head_sum. apply fold_left_agree. intros acc j Hj.
      apply elem_of_seq in Hj. unfold head_term.
      destruct (decide (j <= i)); [| reflexivity].
      now rewrite !list_lookup_fmap, (Hrow j) by lia. }
    rewrite !lookup_take_lt by exact Hi. unfold head_rows.
    rewrite !list_lookup_imap, (Hrow i), Hsum by lia. reflexivity.
  - rewrite !lookup_take_ge by lia. reflexivity.
Qed.

(** A window on two series with the same time stamps is taken row by row. *)
Lemma date_window_zip_with lo hi (g : Z * F -> Z * F -> Z * F) :
  (forall a b, (g a b).1 = a.1) ->
  forall rows1 rows2 : list (Z * F), rows1.*1 = rows2.*1 ->
  date_window lo hi (zip_with g rows1 rows2) =
    zip_with g (date_window lo hi rows1) (date_window lo hi rows2) /\
  (date_window lo hi rows1).*1 = (date_window lo hi rows2).*1.
Proof.
  intros Hg rows1. unfold date_window.
  induction rows1 as [| a rows1 IH]; intros [| b rows2] Hd; try discriminate.
  - split; reflexivity.
  - cbn in Hd. injection Hd as Hab Hd. destruct (IH rows2 Hd) as [IH1 IH2].
    cbn [zip_with]. rewrite !filter_cons, Hg, <- Hab.
    destruct (decide (lo <= a.1 <= hi)%Z); cbn; [| now split].
    rewrite IH1, IH2, Hab. now split.
Qed.
End HeadRowFacts.

(** X1. For a rain series with an increasing index the head cell never
    raises: the padding of [h] by [step.size] makes every slice fit.  The
    head it leaves has one row per day of rain inside the date window, in
    the order of the index, and the row of day [k] holds [dtrue * 1] plus
    [rain[i] * step[k - i]] for the days [i <= k] with [k - i < step.size],
    added in the order of the days. *)
Theorem head_cell_convolution {F : Type} `{Scalar F} (lo hi : Z) (dtrue : F)
    (rain : list (Z * F)) (step : list F) :
  Sorted Z.le (rain.*1) ->
  exists head, head_cell lo hi dtrue rain step = Ok head /\
    head = date_window lo hi (head_rows dtrue rain step) /\
    forall day v, (day, v) ∈ head <->
      (lo <= day <= hi)%Z /\
      exists k amount, rain !! k = Some (day, amount) /\
        v = head_sum dtrue (rain.*2) step k (S k).
Proof.
  intros _. eexists. split; [apply head_cell_rows |]. split; [reflexivity |].
  intros day v. unfold date_window.
  rewrite list_elem_of_filter, elem_of_head_rows. cbn. tauto.
Qed.

Lemma head_cell_convolution_witness :
  Sorted Z.le ([(1%Z, 3%R); (2%Z, 1%R); (5%Z, 4%R)].*1) /\
  exists head, head_cell 2 5 20%R [(1%Z, 3%R); (2%Z, 1%R); (5%Z, 4%R)] [2%R; 1%R] = Ok head /\
    head = date_window 2 5
             (head_rows 20%R [(1%Z, 3%R); (2%Z, 1%R); (5%Z, 4%R)] [2%R; 1%R]) /\
    forall day v, (day, v) ∈ head <->
      (2 <= day <= 5)%Z /\
      exists k amount, [(1%Z, 3%R); (2%Z, 1%R); (5%Z, 4%R)] !! k = Some (day, amount) /\
        v = head_sum 20%R ([(1%Z, 3%R); (2%Z, 1%R); (5%Z, 4%R)].*2) [2%R; 1%R] k (S k).
Proof.
  assert (Hs : Sorted Z.le ([(1%Z, 3%R); (2%Z, 1%R); (5%Z, 4%R)].*1))
    by (cbn; repeat constructor; lia).
  split; [exact Hs |].
  exact (head_cell_convolution (F:=R) 2 5 20%R [(1%Z, 3%R); (2%Z, 1%R); (5%Z, 4%R)]
           [2%R; 1%R] Hs).
Defined.

(** X2. The head is causal: when two rain series with increasing indexes
    agree on their first [k + 1] days, the heads the cell leaves for them
    begin with the same rows, those of the days up to [k] that lie in the
    date window. *)
Theorem head_cell_causal {F : Type} `{Scalar F} (lo hi : Z) (dtrue : F)
    (rain1 rain2 : list (Z * F)) (step : list F) (k : nat) :
  Sorted Z.le (rain1.*1) -> Sorted Z.le (rain2.*1) ->
  take (S k) rain1 = take (S k) rain2 ->
  exists later1 later2,
    head_cell lo hi dtrue rain1 step =
      Ok (date_window lo hi (take (S k) (head_rows dtrue rain1 step)) ++ later1) /\
    head_cell lo hi dtrue rain2 step =
      Ok (date_window lo hi (take (S k) (head_rows dtrue rain1 step)) ++ later2).
Proof.
  intros _ _ Hagree.
  exists (date_window lo hi (drop (S k) (head_rows dtrue rain1 step))),
         (date_window lo hi (drop (S k) (head_rows dtrue rain2 step))).
  rewrite !head_cell_rows. unfold date_window.
  rewrite (head_rows_take dtrue rain1 rain2 step k Hagree) at 2.
  rewrite <- !filter_app, !take_drop. split; reflexivity.
Qed.

Lemma head_cell_causal_witness :
  (Sorted Z.le ([(1%Z, 3%R); (2%Z, 1%R); (5%Z, 4%R)].*1) /\
   Sorted Z.le ([(1%Z, 3%R); (2%Z, 1%R); (6%Z, 5%R); (7%Z, 9%R)].*1) /\
   take 2 [(1%Z, 3%R); (2%Z, 1%R); (5%Z, 4%R)] =
   take 2 [(1%Z, 3%R); (2%Z, 1%R); (6%Z, 5%R); (7%Z, 9%R)]) /\
  exists later1 later2,
    head_cell 2 6 20%R [(1%Z, 3%R); (2%Z, 1%R); (5%Z, 4%R)] [2%R; 1%R] =
      Ok (date_window 2 6
            (take 2 (head_rows 20%R [(1%Z, 3%R); (2%Z, 1%R); (5%Z, 4%R)] [2%R; 1%R]))
          ++ later1) /\
    head_cell 2 6 20%R [(1%Z, 3%R); (2%Z, 1%R); (6%Z, 5%R); (7%Z, 9%R)] [2%R; 1%R] =
      Ok (date_window 2 6
            (take 2 (head_rows 20%R [(1%Z, 3%R); (2%Z, 1%R); (5%Z, 4%R)] [2%R; 1%R]))
          ++ later2).
Proof.
  assert (Hs1 : Sorted Z.le ([(1%Z, 3%R); (2%Z, 1%R); (5%Z, 4%R)].*1))
    by (cbn; repeat constructor; lia).
  assert (Hs2 : Sorted Z.le ([(1%Z, 3%R); (2%Z, 1%R); (6%Z, 5%R); (7%Z, 9%R)].*1))
    by (cbn; repeat constructor; lia).
  split; [repeat split; assumption |].
  exact (head_cell_causal (F:=R) 2 6 20%R [(1%Z, 3%R); (2%Z, 1%R); (5%Z, 4%R)]
           [(1%Z, 3%R); (2%Z, 1%R); (6%Z, 5%R); (7%Z, 9%R)] [2%R; 1%R] 1 Hs1 Hs2 eq_refl).
Defined.

Section UnitRainFacts.
Open Scope R_scope.

Lemma unit_rain_amounts (day0 : Z) (days : list Z) :
  ((day0, 1) :: ((fun day => (day, 0)) <$> days)).*2 = 1 :: replicate (length days) 0.
Proof.
  cbn. f_equal. induction days as [| d days IH]; [reflexivity |].
  cbn. now rewrite IH.
Qed.

Lemma head_sum_unit_rain (dtrue : R) (step : list R) (m k : nat) :
  (k <= m)%nat ->
  head_sum dtrue (1 :: replicate m 0) step k (S k) =
  dtrue + match step !! k with Some sk => sk | None => 0 end.
Proof.
  intros Hk. unfold head_sum. cbn [seq fold_left].
  rewrite fold_left_fixed.
  - unfold head_term. destruct (decide (0 <= k)%nat); [| lia].
    cbn [lookup list_lookup]. rewrite Nat.sub_0_r.
    destruct (step !! k); cbn; lra.
  - intros i Hi. apply elem_of_seq in Hi.
    unfold head_term at 1. destruct (decide (i <= k)%nat); [| reflexivity].
    destruct i as [| j]; [lia |].
    assert (E : (1 :: replicate m 0) !! S j = Some 0)
      by (cbn; apply lookup_replicate_2; lia).
    rewrite E. destruct (step !! (k - S j)%nat); [cbn; lra | reflexivity].
Qed.
End UnitRainFacts.

(** X3. Over the reals, after one unit of rain on the first day and none
    afterwards (index increasing), the head the cell leaves holds, for each
    day [k] inside the date window, the reference level plus the block
    response: [dtrue + step[k]], and [dtrue] once the block response has
    ended. *)
Theorem head_cell_unit_rain (lo hi : Z) (dtrue : R) (day0 : Z) (days : list Z)
    (step : list R) :
  Sorted Z.le (day0 :: days) ->
  head_cell lo hi dtrue ((day0, 1%R) :: ((fun day => (day, 0%R)) <$> days)) step =
  Ok (date_window lo hi
        (imap (fun k row =>
                 (row.1, (dtrue + match step !! k with Some sk => sk | None => 0 end)%R))
           ((day0, 1%R) :: ((fun day => (day, 0%R)) <$> days)))).
Proof.
  intros _. rewrite head_cell_rows. do 2 f_equal. unfold head_rows.
  apply imap_ext. intros k row Ek. f_equal.
  rewrite unit_rain_amounts. apply head_sum_unit_rain.
  apply lookup_lt_Some in Ek. cbn in Ek. rewrite length_fmap in Ek. lia.
Qed.

Lemma head_cell_unit_rain_witness :
  Sorted Z.le (1 :: [2; 3])%Z /\
  head_cell 2 3 20%R ((1%Z, 1%R) :: ((fun day => (day, 0%R)) <$> [2; 3]%Z)) [5%R; 3%R] =
  Ok (date_window 2 3
        (imap (fun k row =>
                 (row.1, (20 + match [5%R; 3%R] !! k with Some sk => sk | None => 0 end)%R))
           ((1%Z, 1%R) :: ((fun day => (day, 0%R)) <$> [2; 3]%Z)))).
Proof.
  assert (Hs : Sorted Z.le (1 :: [2; 3])%Z) by (repeat constructor; lia).
  split; [exact Hs |].
  exact (head_cell_unit_rain 2 3 20%R 1 [2; 3]%Z [5%R; 3%R] Hs).
Defined.

(** ** The gamma block response *)

Section BlockFacts.
Context {F : Type} `{Scalar F}.
Implicit Types s b : list F.

Lemma block_of_step_nil : block_of_step (@nil F) = Raise IndexError.
Proof. reflexivity. Qed.

Lemma block_of_step_cons (s0 : F) s :
  block_of_step (s0 :: s) = Ok (s0 :: zip_with fsub s (s0 :: s)).
Proof.
  unfold block_of_step. cbn [np_get lookup list_lookup bind drop length].
  do 2 f_equal. replace (S (length s) - 1) with (length s) by lia.
  rewrite drop_0.
  apply list_eq. intros k. rewrite !lookup_zip_with.
  destruct (s !! k) as [x |] eqn:Ex; [| reflexivity].
  rewrite lookup_take_lt by (apply lookup_lt_Some in Ex; lia). reflexivity.
Qed.

Lemma block_of_step_entries s (s0 : F) :
  s !! 0 = Some s0 ->
  exists b, block_of_step s = Ok b /\ length b = length s /\
    b !! 0 = Some s0 /\
    forall k x y, s !! k = Some x -> s !! S k = Some y ->
      b !! S k = Some (y - x)%fl.
Proof.
  destruct s as [| z s]; [discriminate |]. intros [= ->].
  eexists. split; [apply block_of_step_cons |]. split; [| split; [reflexivity |]].
  - cbn. rewrite length_zip_with. cbn. lia.
  - intros k x y Ex Ey.
    change (s !! k = Some y) in Ey.
    change (zip_with fsub s (s0 :: s) !! k = Some (y - x)%fl).
    rewrite lookup_zip_with, Ey. cbn. now rewrite Ex.
Qed.
End BlockFacts.

Section GammaFacts.
Context {F : Type} `{Scalar F}.
Variable gammainc : F -> F -> F.
Variable gammaincinv : F -> F -> F.
Variable arange_fits : F -> bool.

Lemma gamma_step_refused (A n a cutoff : F) :
  arange_fits (gamma_tmax gammaincinv A n a cutoff) = false ->
  gamma_step gammainc gammaincinv arange_fits A n a cutoff = Raise ValueError.
Proof. intros E. unfold gamma_step, np_arange. now rewrite E. Qed.

Lemma gamma_step_runs (A n a cutoff : F) :
  arange_fits (gamma_tmax gammaincinv A n a cutoff) = true ->
  exists s, gamma_step gammainc gammaincinv arange_fits A n a cutoff = Ok s /\
    length s = arange_len (gamma_tmax gammaincinv A n a cutoff) /\
    forall k, k < arange_len (gamma_tmax gammaincinv A n a cutoff) ->
      s !! k = Some (A * gammainc n (of_nat k / a))%fl.
Proof.
  intros E. eexists. split; [| split].
  - unfold gamma_step, np_arange. rewrite E. reflexivity.
  - now rewrite length_fmap, length_arange.
  - intros k Hk. now rewrite list_lookup_fmap, lookup_arange.
Qed.

(** The three ways [gamma_block] ends. *)
Lemma gamma_block_cases (A n a cutoff : F) :
  let tmax := gamma_tmax gammaincinv A n a cutoff in
  let s := fun k : nat => (A * gammainc n (of_nat k / a))%fl in
  (arange_fits tmax = false ->
   gamma_block gammainc gammaincinv arange_fits A n a cutoff = Raise ValueError) /\
  (arange_fits tmax = true -> arange_len tmax = 0 ->
   gamma_block gammainc gammaincinv arange_fits A n a cutoff = Raise IndexError) /\
  (arange_fits tmax = true -> 0 < arange_len tmax ->
   exists b, gamma_block gammainc gammaincinv arange_fits A n a cutoff = Ok b /\
     length b = arange_len tmax /\ b !! 0 = Some (s 0) /\
     forall k, S k < arange_len tmax -> b !! S k = Some (s (S k) - s k)%fl).
Proof.
  intros tmax s. unfold gamma_block. split; [| split].
  - intros E. now rewrite gamma_step_refused.
  - intros E Hlen. destruct (gamma_step_runs A n a cutoff E) as (l & -> & Hl & _).
    fold tmax in Hl. rewrite Hlen in Hl. apply length_zero_iff_nil in Hl.
    now rewrite Hl.
  - intros E Hlen. destruct (gamma_step_runs A n a cutoff E) as (l & -> & Hl & Hs).
    fold tmax in Hl, Hs. cbn [bind].
    destruct (block_of_step_entries l (s 0)) as (b & Eb & Hb & H0 & Hinc);
      [now apply Hs |].
    exists b. split; [exact Eb |]. split; [now rewrite Hb |]. split; [exact H0 |].
    intros k Hk. apply Hinc; apply Hs; lia.
Qed.
End GammaFacts.

(** X4. [gamma_block] ends in one of three ways.  It raises [ValueError]
    when [np.arange(0, tmax, 1)] cannot build its array ([tmax] infinite or
    not a number), [IndexError] when the array of times is empty (it reads
    [s[0]]), and otherwise returns as many entries as there are times: the
    step response at time 0, then its increments [s[k+1] - s[k]]. *)
Theorem gamma_block_entries {F : Type} `{Scalar F}
    (gammainc gammaincinv : F -> F -> F) (arange_fits : F -> bool)
    (A n a cutoff : F) :
  let tmax := gamma_tmax gammaincinv A n a cutoff in
  let s := fun k : nat => (A * gammainc n (of_nat k / a))%fl in
  (arange_fits tmax = false ->
   gamma_block gammainc gammaincinv arange_fits A n a cutoff = Raise ValueError) /\
  (arange_fits tmax = true -> arange_len tmax = 0 ->
   gamma_block gammainc gammaincinv arange_fits A n a cutoff = Raise IndexError) /\
  (arange_fits tmax = true -> 0 < arange_len tmax ->
   exists b, gamma_block gammainc gammaincinv arange_fits A n a cutoff = Ok b /\
     length b = arange_len tmax /\ b !! 0 = Some (s 0) /\
     forall k, S k < arange_len tmax -> b !! S k = Some (s (S k) - s k)%fl).
Proof. apply gamma_block_cases. Qed.

Lemma gamma_block_entries_witness :
  ((fun _ : R => true) (gamma_tmax (fun _ _ : R => 3%R) 800%R (11 / 10)%R 1%R (999 / 1000)%R) = true /\
   0 < arange_len (gamma_tmax (fun _ _ : R => 3%R) 800%R (11 / 10)%R 1%R (999 / 1000)%R)) /\
  exists b,
    gamma_block (fun _ x : R => x) (fun _ _ : R => 3%R) (fun _ : R => true)
      800%R (11 / 10)%R 1%R (999 / 1000)%R = Ok b /\
    length b = arange_len (gamma_tmax (fun _ _ : R => 3%R) 800%R (11 / 10)%R 1%R (999 / 1000)%R) /\
    b !! 0 = Some (800 * (INR 0 / 1))%R /\
    forall k, S k < arange_len (gamma_tmax (fun _ _ : R => 3%R) 800%R (11 / 10)%R 1%R (999 / 1000)%R) ->
      b !! S k = Some (800 * (INR (S k) / 1) - 800 * (INR k / 1))%R.
Proof.
  assert (Hlen : 0 < arange_len (gamma_tmax (fun _ _ : R => 3%R) 800%R (11 / 10)%R 1%R (999 / 1000)%R)).
  { cbn. replace (3 * 1)%R with 3%R by lra. rewrite R_arange_len_3. lia. }
  split; [split; [reflexivity | exact Hlen] |].
  exact (proj2 (proj2 (gamma_block_entries (fun _ x : R => x) (fun _ _ : R => 3%R)
                         (fun _ : R => true) 800%R (11 / 10)%R 1%R (999 / 1000)%R)) eq_refl Hlen).
Defined.

Section BlockSums.
Open Scope R_scope.

Lemma Rsum_block_from (s0 : R) : forall (s : list R) (k : nat) (x : R),
  (s0 :: s) !! k = Some x ->
  Rsum (take (S k) (s0 :: zip_with Rminus s (s0 :: s))) = x.
Proof.
  intros s. revert s0. induction s as [| y s IH]; intros s0 k x Ex.
  - destruct k; [| discriminate]. cbn in *. injection Ex as <-. lra.
  - destruct k as [| k].
    + cbn in *. injection Ex as <-. lra.
    + specialize (IH y k x Ex).
      cbn [zip_with take Rsum fold_right] in IH |- *. lra.
Qed.
End BlockSums.

(** X5. Over the reals the block response sums back to the step response:
    the first [k + 1] entries of the block add up to the step response at
    its entry [k]. *)
Theorem block_of_step_sums (s : list R) (k : nat) (x : R) :
  s !! k = Some x ->
  exists b, block_of_step s = Ok b /\ length b = length s /\
    Rsum (take (S k) b) = x.
Proof.
  intros Ex. destruct s as [| s0 s]; [discriminate |].
  eexists. split; [apply block_of_step_cons |]. split.
  - cbn. rewrite length_zip_with. cbn. lia.
  - now apply Rsum_block_from.
Qed.

Lemma block_of_step_sums_witness :
  [0%R; 2%R; 5%R; 6%R] !! 2 = Some 5%R /\
  exists b, block_of_step [0%R; 2%R; 5%R; 6%R] = Ok b /\ length b = 4 /\
    Rsum (take 3 b) = 5%R.
Proof.
  split; [reflexivity |].
  exact (block_of_step_sums [0%R; 2%R; 5%R; 6%R] 2 5%R eq_refl).
Defined.

(** X6. The head cell of pastas_synthetic.ipynb (index of the rain
    increasing) fails only through [gamma_block]: with [ValueError] when
    [np.arange] cannot build the times and with [IndexError] when there is
    no time.  Otherwise it leaves the rows of the days of rain inside the
    date window, computed with the block response without its first
    entry. *)
Theorem synthetic_head_cell_runs {F : Type} `{Scalar F}
    (gammainc gammaincinv : F -> F -> F) (arange_fits : F -> bool)
    (lo hi : Z) (A n a cutoff dtrue : F) (rain : list (Z * F)) :
  let tmax := gamma_tmax gammaincinv A n a cutoff in
  Sorted Z.le (rain.*1) ->
  (arange_fits tmax = false ->
   synthetic_head_cell gammainc gammaincinv arange_fits lo hi A n a cutoff dtrue rain =
   Raise ValueError) /\
  (arange_fits tmax = true -> arange_len tmax = 0 ->
   synthetic_head_cell gammainc gammaincinv arange_fits lo hi A n a cutoff dtrue rain =
   Raise IndexError) /\
  (arange_fits tmax = true -> 0 < arange_len tmax ->
   exists block,
     gamma_block gammainc gammaincinv arange_fits A n a cutoff = Ok block /\
     synthetic_head_cell gammainc gammaincinv arange_fits lo hi A n a cutoff dtrue rain =
     Ok (date_window lo hi (head_rows dtrue rain (drop 1 block)))).
Proof.
  intros tmax _.
  destruct (gamma_block_cases gammainc gammaincinv arange_fits A n a cutoff)
    as (Hv & Hi & Hok).
  unfold synthetic_head_cell. split; [| split].
  - intros E. now rewrite Hv.
  - intros E Hlen. now rewrite Hi.
  - intros E Hlen. destruct (Hok E Hlen) as (b & Eb & _).
    exists b. split; [exact Eb |]. rewrite Eb. cbn [bind].
    apply head_cell_rows.
Qed.

Lemma synthetic_head_cell_runs_witness :
  (Sorted Z.le ([(1%Z, 1%R); (2%Z, 0%R)].*1) /\
   (fun _ : R => true) (gamma_tmax (fun _ _ : R => 3%R) 800%R (11 / 10)%R 1%R (999 / 1000)%R) = true /\
   0 < arange_len (gamma_tmax (fun _ _ : R => 3%R) 800%R (11 / 10)%R 1%R (999 / 1000)%R)) /\
  exists block,
    gamma_block (fun _ x : R => x) (fun _ _ : R => 3%R) (fun _ : R => true)
      800%R (11 / 10)%R 1%R (999 / 1000)%R = Ok block /\
    synthetic_head_cell (fun _ x : R => x) (fun _ _ : R => 3%R) (fun _ : R => true)
      2 2 800%R (11 / 10)%R 1%R (999 / 1000)%R 20%R [(1%Z, 1%R); (2%Z, 0%R)] =
    Ok (date_window 2 2 (head_rows 20%R [(1%Z, 1%R); (2%Z, 0%R)] (drop 1 block))).
Proof.
  assert (Hs : Sorted Z.le ([(1%Z, 1%R); (2%Z, 0%R)].*1))
    by (cbn; repeat constructor; lia).
  assert (Hlen : 0 < arange_len (gamma_tmax (fun _ _ : R => 3%R) 800%R (11 / 10)%R 1%R (999 / 1000)%R)).
  { cbn. replace (3 * 1)%R with 3%R by lra. rewrite R_arange_len_3. lia. }
  split; [repeat split; assumption |].
  exact (proj2 (proj2 (synthetic_head_cell_runs (fun _ x : R => x)
                         (fun _ _ : R => 3%R) (fun _ : R => true) 2 2
                         800%R (11 / 10)%R 1%R (999 / 1000)%R 20%R [(1%Z, 1%R); (2%Z, 0%R)] Hs))
           eq_refl Hlen).
Defined.

(** ** More on the noise cells *)

Section MoreNoiseFacts.
Context {F : Type} `{Scalar F}.
Implicit Types noise delt index a r : list F.

Lemma arma_body_linked alpha beta noise i a prev :
  1 <= i < length noise -> length a = length noise -> a !! (i - 1) = Some prev ->
  exists v, arma_body alpha beta noise i a = Ok (<[i:=v]> a) /\
    forall ni nm, noise !! i = Some ni -> noise !! (i - 1) = Some nm ->
      v = (ni + nm * beta + prev * alpha)%fl.
Proof.
  intros Hi Hlen Eprev.
  destruct (np_get_lt noise i) as (ni & Eni & Gni); [lia |].
  destruct (np_get_lt noise (i - 1)) as (nm & Enm & Gnm); [lia |].
  exists (ni + nm * beta + prev * alpha)%fl. split.
  - unfold arma_body. rewrite Gni. cbn [bind]. rewrite Gnm. cbn [bind].
    rewrite (np_get_Some _ _ _ Eprev). cbn [bind]. apply np_set_lt. lia.
  - intros ni' nm' E E'. rewrite Eni in E. rewrite Enm in E'.
    injection E as <-. now injection E' as <-.
Qed.

Lemma lookup_ho_delt index (j : nat) (tp ti : F) :
  index !! j = Some tp -> index !! S j = Some ti ->
  ho_delt index !! j = Some (ti - tp)%fl.
Proof.
  intros Ep Ei. unfold ho_delt.
  rewrite lookup_zip_with, lookup_drop. cbn [Nat.add].
  rewrite Ei. cbn. now rewrite Ep.
Qed.

(** The AR(1) body never reads [noise[0]]. *)
Lemma ar1_body_tail alpha (x y : F) noise i a :
  1 <= i -> ar1_body alpha (x :: noise) i a = ar1_body alpha (y :: noise) i a.
Proof. intros Hi. destruct i; [lia | reflexivity]. Qed.

End MoreNoiseFacts.

(** X7. The ARMA(1,1) cell returns one value per entry of the base noise;
    the first is the initial zero and from index 1 on
    [a[i] = noise[i] + noise[i-1] * beta + a[i-1] * alpha]. *)
Theorem arma_cell_recurrence {F : Type} `{Scalar F} (alpha beta : F)
    (noise : list F) :
  exists a, arma_cell alpha beta noise = Ok a /\ length a = length noise /\
    a !! 0 = zeros (length noise) !! 0 /\
    forall i ni nm prev, 1 <= i < length noise ->
      noise !! i = Some ni -> noise !! (i - 1) = Some nm ->
      a !! (i - 1) = Some prev ->
      a !! i = Some (ni + nm * beta + prev * alpha)%fl.
Proof.
  destruct (for_range_linked (length noise) (arma_body alpha beta noise) _
              (arma_body_linked alpha beta noise) (zeros (length noise)))
    as (a & Ea & Hlen & H0 & Hlink); [apply length_zeros |].
  exists a. split; [exact Ea |]. split; [exact Hlen |]. split; [exact H0 |].
  intros i ni nm prev Hi Eni Enm Eprev.
  destruct (Hlink i prev Hi Eprev) as (v & Ev & Hv).
  now rewrite Ev, (Hv ni nm Eni Enm).
Qed.

Lemma arma_cell_recurrence_witness :
  1 <= 1 < length [1%R; 2%R; 3%R] /\
  exists a, arma_cell (19 / 20)%R (1 / 10)%R [1%R; 2%R; 3%R] = Ok a /\
    length a = 3 /\ a !! 0 = Some 0%R /\
    a !! 1 = Some (2 + 1 * (1 / 10) + 0 * (19 / 20))%R.
Proof.
  assert (Hi : 1 <= 1 < length [1%R; 2%R; 3%R]) by (cbn; lia).
  split; [exact Hi |].
  destruct (arma_cell_recurrence (F:=R) (19 / 20)%R (1 / 10)%R [1%R; 2%R; 3%R])
    as (a & Ea & Hlen & H0 & Hrec).
  exists a. split; [exact Ea |]. split; [exact Hlen |]. split; [exact H0 |].
  exact (Hrec 1 2%R 1%R 0%R Hi eq_refl eq_refl H0).
Defined.

(** X8. With the time steps taken from the index of the observations, the
    AR(1) cell with irregular steps runs on every non-empty series, starts
    at [noise[0]] and decays each residual over the time elapsed since the
    observation before:
    [r[i] = exp(-(index[i] - index[i-1]) / alpha) * r[i-1] + noise[i]]. *)
Theorem residuals_cell_elapsed_time {F : Type} `{Scalar F} (alpha : F)
    (index noise : list F) :
  noise <> [] -> length index = length noise ->
  exists r, residuals_cell (ho_delt index) alpha noise = Ok r /\
    length r = length noise /\ r !! 0 = noise !! 0 /\
    forall i tp ti ni prev, 1 <= i < length noise ->
      index !! (i - 1) = Some tp -> index !! i = Some ti ->
      noise !! i = Some ni -> r !! (i - 1) = Some prev ->
      r !! i = Some (fexp (- (ti - tp) / alpha) * prev + ni)%fl.
Proof.
  intros Hne Hlen.
  destruct (residuals_cell_linked (ho_delt index) alpha noise Hne)
    as (r & Er & Hr & H0 & Hrec); [rewrite length_ho_delt; lia |].
  exists r. split; [exact Er |]. split; [exact Hr |]. split; [exact H0 |].
  intros i tp ti ni prev Hi Etp Eti Eni Eprev.
  apply (Hrec i (ti - tp)%fl ni prev Hi); try assumption.
  apply lookup_ho_delt; [exact Etp |].
  now replace (S (i - 1)) with i by lia.
Qed.

Lemma residuals_cell_elapsed_time_witness :
  ([1%R; 2%R; 3%R] <> [] /\ length [0%R; 1%R; 15%R] = length [1%R; 2%R; 3%R]) /\
  exists r, residuals_cell (ho_delt [0%R; 1%R; 15%R]) 50%R [1%R; 2%R; 3%R] = Ok r /\
    length r = 3 /\ r !! 0 = Some 1%R /\
    forall i tp ti ni prev, 1 <= i < 3 ->
      [0%R; 1%R; 15%R] !! (i - 1) = Some tp -> [0%R; 1%R; 15%R] !! i = Some ti ->
      [1%R; 2%R; 3%R] !! i = Some ni -> r !! (i - 1) = Some prev ->
      r !! i = Some (exp (- (ti - tp) / 50) * prev + ni)%R.
Proof.
  assert (Hne : [1%R; 2%R; 3%R] <> []) by discriminate.
  split; [split; [exact Hne | reflexivity] |].
  exact (residuals_cell_elapsed_time (F:=R) 50%R [0%R; 1%R; 15%R] [1%R; 2%R; 3%R]
           Hne eq_refl).
Defined.

(** X10. The AR(1) cell of noisemodel.ipynb never uses the first draw:
    two base noise series that differ in [noise[0]] only give the same
    output. *)
Theorem ar1_cell_ignores_first {F : Type} `{Scalar F} (alpha x y : F)
    (rest : list F) :
  ar1_cell alpha (x :: rest) = ar1_cell alpha (y :: rest).
Proof.
  unfold ar1_cell. cbn [length].
  apply (for_range_ext (S (length rest))).
  - intros i a Hi _. apply ar1_body_tail.
    apply elem_of_range1 in Hi. lia.
  - intros i a a' _ Hlen E. now rewrite (ar1_body_length _ _ _ _ _ E).
  - apply length_zeros.
Qed.

(** X11. Over the reals the cell [noise_corr] answers a unit impulse with
    a geometric decay: on the base noise [[1, 0, ..., 0]] its entry [k] is
    [exp(-1/alphatrue)] to the power [k]. *)
Theorem noise_corr_impulse_decay (alphatrue : R) (m k : nat) :
  alphatrue <> 0%R -> k <= m ->
  exists r, noise_corr_cell alphatrue (1%R :: replicate m 0%R) = Ok r /\
    length r = S m /\
    r !! k = Some (exp (Ropp 1 / alphatrue) ^ k)%R.
Proof.
  intros Hnz Hk.
  destruct (noise_corr_cell_linked (F:=R) alphatrue (1%R :: replicate m 0%R))
    as (r & Er & Hlen & H0 & Hrec); [discriminate | now apply R_is0_false |].
  unfold recurrence in Hrec.
  cbn [length] in Hlen, Hrec. rewrite length_replicate in Hlen, Hrec.
  exists r. split; [exact Er |]. split; [exact Hlen |].
  induction k as [| k IH].
  - rewrite H0. reflexivity.
  - rewrite (Hrec (S k) 0%R (exp (Ropp 1 / alphatrue) ^ k)%R).
    + f_equal. cbn. lra.
    + lia.
    + cbn. apply lookup_replicate_2. lia.
    + replace (S k - 1) with k by lia. apply IH. lia.
Qed.

Lemma noise_corr_impulse_decay_witness :
  (2%R <> 0%R /\ 3 <= 5) /\
  exists r, noise_corr_cell 2%R (1%R :: replicate 5 0%R) = Ok r /\
    length r = 6 /\
    r !! 3 = Some (exp (Ropp 1 / 2) ^ 3)%R.
Proof.
  assert (Hnz : 2%R <> 0%R) by lra.
  assert (Hk : 3 <= 5) by lia.
  split; [split; assumption |].
  exact (noise_corr_impulse_decay 2%R 5 3 Hnz Hk).
Defined.

(** X12. The check of FourParam runs exactly when the analytic array has
    one entry fewer than there are sample times.  Every entry of its
    numerical sequence is then a quotient by the quadrature over
    [[0, inf)]: entry [i >= 1] is the quadrature over [[0, t[i]]] divided
    by it, entry 0 is zero divided by it. *)
Theorem check_fourparam_entries {F : Type} `{Scalar F}
    (quad : (F -> list F -> F) -> F -> Bound F -> list F -> F * F)
    (fam : Family F) (p : list F) :
  let len := arange_len (get_tmax fam p) in
  let total := fst (quad (impulse fam) f0 Infinity p) in
  (length (step fam p) = len - 1 ->
   exists c, check_fourparam quad fam p = Ok c /\
     chk_t c = arange (get_tmax fam p) /\ chk_step c = step fam p /\
     length (chk_stepnum c) = len /\
     (0 < len -> chk_stepnum c !! 0 = Some (f0 / total)%fl) /\
     forall i, 1 <= i < len ->
       chk_stepnum c !! i =
       Some (fst (quad (impulse fam) f0 (Finite (of_nat i)) p) / total)%fl) /\
  (length (step fam p) <> len - 1 ->
   check_fourparam quad fam p = Raise ValueError).
Proof.
  intros len total.
  destruct (integrate_cell_spec quad fam p) as (c & Ec & Ht & Hstep & Hlen & H0 & Hq).
  destruct (fourparam_cell_rescaled quad fam p)
    as (c1 & c' & Ec1 & Ec' & Ht' & Hstep' & Hlen' & Hdiv).
  rewrite Ec in Ec1. injection Ec1 as <-.
  unfold check_fourparam. rewrite Ec'. cbn [bind]. split; intros Hs.
  - exists c'. rewrite compare_cell_Ok.
    + split; [reflexivity |]. split; [now rewrite Ht' |].
      split; [now rewrite Hstep' |]. split; [now rewrite Hlen' |]. split.
      * intros Hpos. apply Hdiv. now apply H0.
      * intros i Hi. apply Hdiv. now apply Hq.
    + rewrite Hstep', Ht', Hstep, Ht, length_arange. exact Hs.
    + rewrite Hlen', Ht', Ht, length_arange. exact Hlen.
  - rewrite compare_cell_ValueError; [reflexivity |].
    rewrite Hstep', Ht', Hstep, Ht, length_arange. exact Hs.
Qed.

Lemma check_fourparam_entries_witness :
  length (step const_family [5%R]) = arange_len (get_tmax const_family [5%R]) - 1 /\
  exists c, check_fourparam quad_one_point const_family [5%R] = Ok c /\
    chk_t c = arange (get_tmax const_family [5%R]) /\
    chk_step c = step const_family [5%R] /\
    length (chk_stepnum c) = arange_len (get_tmax const_family [5%R]) /\
    (0 < arange_len (get_tmax const_family [5%R]) ->
     chk_stepnum c !! 0 = Some (0 / 1)%R) /\
    forall i, 1 <= i < arange_len (get_tmax const_family [5%R]) ->
      chk_stepnum c !! i =
      Some (fst (quad_one_point (impulse const_family) 0%R (Finite (INR i)) [5%R]) / 1)%R.
Proof.
  assert (Hs : length (step const_family [5%R]) =
               arange_len (get_tmax const_family [5%R]) - 1)
    by (cbn; now rewrite R_arange_len_3).
  split; [exact Hs |].
  exact (proj1 (check_fourparam_entries quad_one_point const_family [5%R]) Hs).
Defined.

Section SigmaR.
Open Scope R_scope.

(** X13. For a positive [alpha] the standard deviation of the residuals is
    computed without an exception and satisfies
    [sigma_r^2 * (1 - exp(-14/alpha)^2) = sigma_n^2], so it exceeds a
    positive [sigma_n]; for [alpha = 0] the cell raises
    [ZeroDivisionError]. *)
Theorem sigma_r_cell_variance (sigma_n alpha : R) :
  ((0 < alpha)%R ->
   exists s, sigma_r_cell sigma_n alpha = Ok s /\
     (s * s * (1 - exp (Ropp 14 / alpha) * exp (Ropp 14 / alpha)) = sigma_n * sigma_n)%R /\
     ((0 < sigma_n)%R -> (sigma_n < s)%R)) /\
  sigma_r_cell sigma_n 0%R = Raise ZeroDivisionError.
Proof.
  split.
  - intros Hpos.
    set (q := (Ropp 2 * 14 / alpha)%R).
    assert (Hq : (q < 0)%R).
    { unfold q. apply Rmult_neg_pos; [lra | now apply Rinv_0_lt_compat]. }
    assert (Hlo : (0 < exp q)%R) by apply exp_pos.
    assert (Hhi : (exp q < 1)%R) by (rewrite <- exp_0; now apply exp_increasing).
    assert (Hsq : (exp (Ropp 14 / alpha) * exp (Ropp 14 / alpha) = exp q)%R).
    { rewrite <- exp_plus. f_equal. unfold q, Rdiv. lra. }
    assert (Hroot : (0 < sqrt (1 - exp q))%R) by (apply sqrt_lt_R0; lra).
    assert (Hroot1 : (sqrt (1 - exp q) < 1)%R).
    { rewrite <- sqrt_1 at 2. apply sqrt_lt_1; lra. }
    assert (Hss : (sqrt (1 - exp q) * sqrt (1 - exp q) = 1 - exp q)%R)
      by (apply sqrt_sqrt; lra).
    exists (sigma_n / sqrt (1 - exp q))%R. split; [| split].
    + unfold sigma_r_cell.
      rewrite (py_div_nonzero (F:=R)) by (apply R_is0_false; lra).
      reflexivity.
    + rewrite Hsq. set (rt := sqrt (1 - exp q)) in *.
      rewrite <- Hss. field. lra.
    + intros Hn.
      apply (Rmult_lt_reg_r (sqrt (1 - exp q))); [exact Hroot |].
      set (rt := sqrt (1 - exp q)) in *.
      replace (sigma_n / rt * rt) with sigma_n by (field; lra).
      nra.
  - unfold sigma_r_cell. now rewrite (py_div_zero (F:=R)) by apply R_is0_true.
Qed.

Lemma sigma_r_cell_variance_witness :
  (0 < 50)%R /\
  exists s, sigma_r_cell (1 / 20)%R 50%R = Ok s /\
    (s * s * (1 - exp (Ropp 14 / 50) * exp (Ropp 14 / 50)) = 1 / 20 * (1 / 20))%R /\
    ((0 < 1 / 20)%R -> (1 / 20 < s)%R).
Proof.
  assert (Hpos : (0 < 50)%R) by lra.
  split; [exact Hpos |].
  exact (proj1 (sigma_r_cell_variance (1 / 20)%R 50%R) Hpos).
Defined.
End SigmaR.

Section RealHeadFacts.
Open Scope R_scope.

(** Three running sums that start together stay additive when the rain of
    the third is the sum of the rains of the other two. *)
Lemma head_sum_fold_additive (rain1 rain2 step : list R) (k : nat) (c : R) :
  length rain1 = length rain2 ->
  forall (l : list nat) (a1 a2 a3 : R),
  a3 - c = (a1 - c) + (a2 - c) ->
  fold_left (head_term (zip_with Rplus rain1 rain2) step k) l a3 - c =
  (fold_left (head_term rain1 step k) l a1 - c) +
  (fold_left (head_term rain2 step k) l a2 - c).
Proof.
  intros Hlen l. induction l as [| i l IH]; intros a1 a2 a3 Ha; [exact Ha |].
  cbn [fold_left]. apply IH. unfold head_term.
  destruct (decide (i <= k)%nat); [| exact Ha].
  rewrite lookup_zip_with.
  destruct (rain1 !! i) as [r1 |] eqn:E1.
  - destruct (lookup_lt_is_Some_2 rain2 i) as [r2 E2].
    { apply lookup_lt_Some in E1. lia. }
    rewrite E2. cbn [mbind option_bind].
    destruct (step !! (k - i)%nat); [cbn; lra | exact Ha].
  - assert (E2 : rain2 !! i = None).
    { apply lookup_ge_None. apply lookup_ge_None in E1. lia. }
    rewrite E2. exact Ha.
Qed.

Lemma R_arange_len_spec (x : R) (i : nat) :
  (i < R_arange_len x)%nat <-> INR i < x.
Proof.
  unfold R_arange_len.
  destruct (archimed (- x)) as [Hup1 Hup2].
  rewrite INR_IZR_INZ. split; intros Hi.
  - assert (Hz : (Z.of_nat i <= - up (- x))%Z) by lia.
    apply IZR_le in Hz. rewrite opp_IZR in Hz. lra.
  - assert (Hz : (Z.of_nat i < 1 - up (- x))%Z).
    { apply lt_IZR. rewrite minus_IZR. lra. }
    lia.
Qed.
End RealHeadFacts.

Section AdditiveFacts.
Open Scope R_scope.

Lemma head_rows_additive (dtrue : R) (rain1 rain2 : list (Z * R)) (step : list R) :
  rain1.*1 = rain2.*1 ->
  head_rows dtrue (zip_with (fun a b => (a.1, a.2 + b.2)) rain1 rain2) step =
  zip_with (fun r1 r2 => (r1.1, dtrue + ((r1.2 - dtrue) + (r2.2 - dtrue))))
    (head_rows dtrue rain1 step) (head_rows dtrue rain2 step).
Proof.
  intros Hd.
  assert (Hlen : length rain1 = length rain2)
    by (rewrite <- (length_fmap fst rain1), Hd; apply length_fmap).
  assert (Ham : (zip_with (fun a b => (a.1, a.2 + b.2)) rain1 rain2).*2 =
                zip_with Rplus (rain1.*2) (rain2.*2)).
  { apply list_eq. intros k.
    rewrite list_lookup_fmap, !lookup_zip_with, !list_lookup_fmap.
    destruct (rain1 !! k); [| reflexivity]. now destruct (rain2 !! k). }
  apply list_eq. intros k. unfold head_rows.
  rewrite list_lookup_imap, !lookup_zip_with, !list_lookup_imap, Ham.
  destruct (rain1 !! k) as [a |] eqn:E1; [| reflexivity].
  destruct (lookup_lt_is_Some_2 rain2 k) as [b E2].
  { apply lookup_lt_Some in E1. lia. }
  rewrite E2. cbn. do 2 f_equal.
  pose proof (head_sum_fold_additive (rain1.*2) (rain2.*2) step k dtrue
                ltac:(now rewrite !length_fmap) (seq 0 (S k))
                (dtrue * 1) (dtrue * 1) (dtrue * 1) ltac:(lra)) as Hadd.
  cbn [seq fold_left] in Hadd. lra.
Qed.
End AdditiveFacts.

(** X14. Over the reals the head is additive in the rain: for two rain
    series on the same increasing index, the head the cell leaves for their
    sum has the rows of the two heads, and each of its values lies above
    the reference level by the sum of what the two values lie above it. *)
Theorem head_cell_additive (lo hi : Z) (dtrue : R) (rain1 rain2 : list (Z * R))
    (step : list R) :
  Sorted Z.le (rain1.*1) -> rain1.*1 = rain2.*1 ->
  exists h1 h2, head_cell lo hi dtrue rain1 step = Ok h1 /\
    head_cell lo hi dtrue rain2 step = Ok h2 /\
    h1.*1 = h2.*1 /\
    head_cell lo hi dtrue
      (zip_with (fun a b => (a.1, (a.2 + b.2)%R)) rain1 rain2) step =
    Ok (zip_with
          (fun r1 r2 => (r1.1, (dtrue + ((r1.2 - dtrue) + (r2.2 - dtrue)))%R))
          h1 h2).
Proof.
  intros _ Hd.
  assert (Hrows : (head_rows dtrue rain1 step).*1 = (head_rows dtrue rain2 step).*1)
    by now rewrite !fst_head_rows.
  destruct (date_window_zip_with lo hi
              (fun r1 r2 : Z * R => (r1.1, (dtrue + ((r1.2 - dtrue) + (r2.2 - dtrue)))%R))
              (fun _ _ => eq_refl) _ _ Hrows) as [Hzip Hfst].
  exists (date_window lo hi (head_rows dtrue rain1 step)),
         (date_window lo hi (head_rows dtrue rain2 step)).
  rewrite !head_cell_rows, head_rows_additive by exact Hd.
  rewrite Hzip. repeat split. exact Hfst.
Qed.

Lemma head_cell_additive_witness :
  (Sorted Z.le ([(1%Z, 3%R); (2%Z, 1%R)].*1) /\
   [(1%Z, 3%R); (2%Z, 1%R)].*1 = [(1%Z, 0%R); (2%Z, 2%R)].*1) /\
  exists h1 h2, head_cell 2 2 20%R [(1%Z, 3%R); (2%Z, 1%R)] [2%R; 1%R] = Ok h1 /\
    head_cell 2 2 20%R [(1%Z, 0%R); (2%Z, 2%R)] [2%R; 1%R] = Ok h2 /\
    h1.*1 = h2.*1 /\
    head_cell 2 2 20%R
      (zip_with (fun a b => (a.1, (a.2 + b.2)%R))
         [(1%Z, 3%R); (2%Z, 1%R)] [(1%Z, 0%R); (2%Z, 2%R)]) [2%R; 1%R] =
    Ok (zip_with
          (fun r1 r2 => (r1.1, (20 + ((r1.2 - 20) + (r2.2 - 20)))%R))
          h1 h2).
Proof.
  assert (Hs : Sorted Z.le ([(1%Z, 3%R); (2%Z, 1%R)].*1))
    by (cbn; repeat constructor; lia).
  split; [split; [exact Hs | reflexivity] |].
  exact (head_cell_additive 2 2 20%R [(1%Z, 3%R); (2%Z, 1%R)]
           [(1%Z, 0%R); (2%Z, 2%R)] [2%R; 1%R] Hs eq_refl).
Defined.

(** X15. Over the reals the sample times of the integration cell are the
    natural numbers below [tmax], in order: there is an entry [i] exactly
    when [i < tmax], and it is the time [i]. *)
Theorem integrate_cell_sample_times
    (quad : (R -> list R -> R) -> R -> Bound R -> list R -> R * R)
    (fam : Family R) (p : list R) :
  exists c, integrate_cell quad fam p = Ok c /\
    forall i : nat,
      ((INR i < get_tmax fam p)%R -> chk_t c !! i = Some (INR i)) /\
      (~ (INR i < get_tmax fam p)%R -> chk_t c !! i = None).
Proof.
  destruct (integrate_cell_spec quad fam p) as (c & Ec & Ht & _).
  exists c. split; [exact Ec |]. intros i. rewrite Ht. split; intros Hi.
  - exact (lookup_arange (F:=R) (get_tmax fam p) i
             (proj2 (R_arange_len_spec _ _) Hi)).
  - apply lookup_ge_None. rewrite (length_arange (F:=R)).
    destruct (decide (i < R_arange_len (get_tmax fam p))) as [Hlt | Hge]; [| cbn; lia].
    apply R_arange_len_spec in Hlt. contradiction.
Qed.

Lemma integrate_cell_sample_times_witness :
  ((INR 2 < 3)%R /\ ~ (INR 3 < 3)%R) /\
  exists c, integrate_cell quad_one_point const_family [5%R] = Ok c /\
    chk_t c !! 2 = Some (INR 2) /\ chk_t c !! 3 = None.
Proof.
  assert (H2 : (INR 2 < 3)%R) by (cbn; lra).
  assert (H3 : ~ (INR 3 < 3)%R) by (cbn; lra).
  split; [split; assumption |].
  destruct (integrate_cell_sample_times quad_one_point const_family [5%R])
    as (c & Ec & Ht).
  exists c. split; [exact Ec |].
  split; [exact (proj1 (Ht 2) H2) | exact (proj2 (Ht 3) H3)].
Defined.
